(** * The event bus of [ex3.py]: a shallow embedding and its properties

    [ex3.py] implements a process-local publish/subscribe router: an
    [EventBus] keeps two dictionaries keyed by event class, one holding the
    subscribers and one the filter predicates, and [publish] walks the
    subscriber list of the published event's class.

    The embedding follows the Python text.  The two dictionaries are finite
    maps, the subscriber and filter objects are records of callbacks, and a
    call of a bus method is a computation in a small monad that threads the
    machine state, carries a raised [Exception], and records every call the
    bus makes to a callback or to [print].

    The bus is read twice.  In the first reading ([publish]) the callbacks
    are those of the file: they reach the outside world (type [U]), hold no
    reference to the bus, and what they raise is an instance of
    [Exception].  In the second, finer reading ([publish_live]) a callback
    may call [subscribe] and [add_filter] on the bus that is calling it and
    may raise an object that is no instance of [Exception] (KeyboardInterrupt,
    SystemExit, CancelledError); the loops then walk the lists as they are
    stored, and such an object leaves [publish].  The two readings agree on
    the callbacks of the first ([publish_live_quiet]).

    Boundaries of the model:
    - one [await bus.publish(event)] is run to completion on its own; other
      asyncio tasks that might be scheduled while a handler is suspended are
      not represented;
    - a callback that publishes an event itself, or that reaches into the
      dictionaries of the bus other than through [subscribe] and
      [add_filter], is not represented;
    - the data of an event lies in the fragment of values of [PyVal]. *)

From stdpp Require Import gmap strings list.

Open Scope string_scope.
Open Scope list_scope.

(** ** Python values *)

(** The fragment of Python values the file manipulates: [Event.data] is
    typed [Any] and holds dictionaries of strings and integers in [main];
    every bus method evaluates to [None].  Floats, booleans and objects of
    other classes are not represented: a statement about every [Event] is a
    statement about the events whose data lies in this fragment. *)
#[local] Unset Elimination Schemes.
Inductive PyVal :=
| VNone
| VInt (z : Z)
| VStr (s : string)
| VDict (items : list (string * PyVal))
| VList (items : list PyVal).
#[local] Set Elimination Schemes.

(** [type(v).__name__] *)
Definition type_name (v : PyVal) : string :=
  match v with
  | VNone => "NoneType"
  | VInt _ => "int"
  | VStr _ => "str"
  | VDict _ => "dict"
  | VList _ => "list"
  end.

(** An instance of [Exception]; [str(e)] is its message. *)
Record Exn := { exn_class : string; exn_msg : string }.

Definition str (e : Exn) : string := exn_msg e.

Inductive Res (A : Type) :=
| Ok (a : A)
| Raise (e : Exn).
Arguments Ok {A} a.
Arguments Raise {A} e.

(** ** Event classes and events *)

(** [Type[Event]]: the class [Event] or a class derived from it by a chain of
    single inheritance.  A class is identified by its name and its base. *)
Inductive EventType :=
| EventClass
| Subclass (cls_name : string) (base : EventType).

Global Instance EventType_eq_dec : EqDecision EventType.
Proof. solve_decision. Defined.

Fixpoint mro (c : EventType) : list string :=
  match c with
  | EventClass => []
  | Subclass n b => n :: mro b
  end.

Fixpoint of_mro (l : list string) : EventType :=
  match l with
  | [] => EventClass
  | n :: l' => Subclass n (of_mro l')
  end.

Lemma of_mro_mro c : of_mro (mro c) = c.
Proof. induction c as [|n b IH]; simpl; [done | by rewrite IH]. Qed.

Global Instance EventType_countable : Countable EventType :=
  inj_countable' mro of_mro of_mro_mro.

(** [issubclass(c, a)]: [a] is [c] or one of its bases. *)
Fixpoint issubclass (c a : EventType) : bool :=
  bool_decide (c = a) ||
  match c with
  | EventClass => false
  | Subclass _ b => issubclass b a
  end.

(** The dataclass [Event]; [event_type] is [type(event)]. *)
Record Event := {
  event_type : EventType;
  name : string;
  data : PyVal
}.

Definition isinstance (event : Event) (c : EventType) : bool :=
  issubclass (event_type event) c.

Definition UserActionEvent : EventType := Subclass "UserActionEvent" EventClass.
Definition SystemAlertEvent : EventType := Subclass "SystemAlertEvent" EventClass.
Definition DataChangeEvent : EventType := Subclass "DataChangeEvent" EventClass.

(** ** Subscribers, filters and the bus *)

(** A method or function of the collaborators: it receives the event, may
    change the outside world and returns or raises. *)
Definition Callback (U A : Type) : Type := Event → U → Res A * U.

(** [EventSubscriber]; [sub_id] is the identity of the object. *)
Record EventSubscriber (U : Type) := {
  sub_id : nat;
  can_handle : Callback U bool;
  handle : Callback U unit
}.
Arguments sub_id {U} _.
Arguments can_handle {U} _.
Arguments handle {U} _.

Record EventBus (U : Type) := {
  _subscribers : gmap EventType (list (EventSubscriber U));
  _filters : gmap EventType (list (Callback U bool))
}.
Arguments _subscribers {U} _.
Arguments _filters {U} _.

(** [EventBus.__init__] *)
Definition EventBus_init {U} : EventBus U :=
  {| _subscribers := ∅; _filters := ∅ |}.

(** What the bus does that can be seen from outside: the calls it makes, in
    the order it makes them, each with what the callee answered. *)
Inductive Call :=
| can_handle_call (sid : nat) (r : Res bool)
| filter_call (ty : EventType) (k : nat) (r : Res bool)
| handle_call (sid : nat) (r : Res unit)
| print_call (line : string).

Record State (U : Type) := {
  bus : EventBus U;
  world : U
}.
Arguments bus {U} _.
Arguments world {U} _.

Record Run (U A : Type) := {
  result : Res A;
  final : State U;
  trace : list Call
}.
Arguments result {U A} _.
Arguments final {U A} _.
Arguments trace {U A} _.

Definition M (U A : Type) : Type := State U → Run U A.

Section Bus.
Context {U : Type}.

Definition ret {A} (a : A) : M U A :=
  λ st, {| result := Ok a; final := st; trace := [] |}.

Definition bind {A B} (m : M U A) (k : A → M U B) : M U B :=
  λ st,
    let r := m st in
    match result r with
    | Ok a =>
        let r' := k a (final r) in
        {| result := result r'; final := final r';
           trace := trace r ++ trace r' |}
    | Raise e => {| result := Raise e; final := final r; trace := trace r |}
    end.

(** [try: m  except Exception as e: h e] *)
Definition try_except {A} (m : M U A) (h : Exn → M U A) : M U A :=
  λ st,
    let r := m st in
    match result r with
    | Ok a => r
    | Raise e =>
        let r' := h e (final r) in
        {| result := result r'; final := final r';
           trace := trace r ++ trace r' |}
    end.

Definition get_subscribers : M U (gmap EventType (list (EventSubscriber U))) :=
  λ st, {| result := Ok (_subscribers (bus st)); final := st; trace := [] |}.

Definition get_filters : M U (gmap EventType (list (Callback U bool))) :=
  λ st, {| result := Ok (_filters (bus st)); final := st; trace := [] |}.

Definition set_subscribers (d : gmap EventType (list (EventSubscriber U)))
  : M U unit :=
  λ st, {| result := Ok tt;
           final := {| bus := {| _subscribers := d;
                                 _filters := _filters (bus st) |};
                       world := world st |};
           trace := [] |}.

Definition set_filters (d : gmap EventType (list (Callback U bool)))
  : M U unit :=
  λ st, {| result := Ok tt;
           final := {| bus := {| _subscribers := _subscribers (bus st);
                                 _filters := d |};
                       world := world st |};
           trace := [] |}.

(** [d[k]], which raises [KeyError] on a missing key. *)
Definition getitem {V} (d : gmap EventType V) (k : EventType) : M U V :=
  match d !! k with
  | Some v => ret v
  | None => λ st, {| result := Raise {| exn_class := "KeyError"; exn_msg := "" |};
                     final := st; trace := [] |}
  end.

(** A call of a collaborator's callback, recorded as [mk answer], the
    callback holding no reference to the bus ([call_live] is the call of a
    callback that does). *)
Definition call {A} (c : Callback U A) (mk : Res A → Call) (event : Event)
  : M U A :=
  λ st,
    let '(r, w) := c event (world st) in
    {| result := r;
       final := {| bus := bus st; world := w |};
       trace := [mk r] |}.

Definition print (line : string) : M U unit :=
  λ st, {| result := Ok tt; final := st; trace := [print_call line] |}.
End Bus.

Notation "'let*' x ':=' m 'in' k" := (bind m (λ x, k))
  (at level 10, x name, m at level 100, k at level 200).
Notation "m ';;' k" := (bind m (λ _, k))
  (at level 100, k at level 200, right associativity).

Section Bus_methods.
Context {U : Type}.

(** [for x in l: body(x)] *)
Fixpoint for_each {A} (l : list A) (body : A → M U unit) : M U unit :=
  match l with
  | [] => ret tt
  | x :: l' => body x ;; for_each l' body
  end.

(** [all(filter_func(event) for filter_func in fs)]: the generator is
    consumed up to the first false answer; [k] numbers the predicates. *)
Fixpoint all_filters (ty : EventType) (k : nat) (fs : list (Callback U bool))
    (event : Event) : M U bool :=
  match fs with
  | [] => ret true
  | filter_func :: fs' =>
      let* b := call filter_func (filter_call ty k) event in
      if b then all_filters ty (S k) fs' event else ret false
  end.

Definition _should_handle (event : Event) (subscriber : EventSubscriber U)
  : M U bool :=
  let event_type := event_type event in
  let* ok := call (can_handle subscriber) (can_handle_call (sub_id subscriber)) event in
  if negb ok then ret false
  else
    let* filters := get_filters in
    match filters !! event_type with
    | Some fs => all_filters event_type 0 fs event
    | None => ret true
    end.

(** [f"Error handling event {event.name}: {str(e)}"] *)
Definition error_line (event : Event) (e : Exn) : string :=
  "Error handling event " +:+ name event +:+ ": " +:+ str e.

(** The body of the loop of [publish], with its [try]. *)
Definition attempt (event : Event) (subscriber : EventSubscriber U) : M U unit :=
  try_except
    (let* go := _should_handle event subscriber in
     if go
     then call (handle subscriber) (handle_call (sub_id subscriber)) event
     else ret tt)
    (λ e, print (error_line event e)).

Definition publish (event : Event) : M U PyVal :=
  let event_type := event_type event in
  let* subscribers := get_subscribers in
  match subscribers !! event_type with
  | None => ret VNone
  | Some l => for_each l (attempt event) ;; ret VNone
  end.

Definition subscribe (event_type : EventType) (subscriber : EventSubscriber U)
  : M U PyVal :=
  let* subscribers := get_subscribers in
  (match subscribers !! event_type with
   | None => set_subscribers (<[event_type := []]> subscribers)
   | Some _ => ret tt
   end) ;;
  let* subscribers := get_subscribers in
  let* l := getitem subscribers event_type in
  set_subscribers (<[event_type := l ++ [subscriber]]> subscribers) ;;
  ret VNone.

Definition add_filter (event_type : EventType) (filter_func : Callback U bool)
  : M U PyVal :=
  let* filters := get_filters in
  (match filters !! event_type with
   | None => set_filters (<[event_type := []]> filters)
   | Some _ => ret tt
   end) ;;
  let* filters := get_filters in
  let* l := getitem filters event_type in
  set_filters (<[event_type := l ++ [filter_func]]> filters) ;;
  ret VNone.
End Bus_methods.

(** ** The sample handlers, the sample publisher and [main] *)

(** What the sample handlers write to standard output: one constructor per
    f-string of the file, holding the values that are interpolated. *)
Inductive Output :=
| log_line (name : string) (data : PyVal)
| user_action_line (data : PyVal)
| alert_line (data : PyVal).

Definition Console : Type := list Output.

Definition LoggingHandler (sid : nat) : EventSubscriber Console :=
  {| sub_id := sid;
     can_handle := λ _ w, (Ok true, w);
     handle := λ event w, (Ok tt, w ++ [log_line (name event) (data event)]) |}.

Definition UserActionHandler (sid : nat) : EventSubscriber Console :=
  {| sub_id := sid;
     can_handle := λ event w, (Ok (isinstance event UserActionEvent), w);
     handle := λ event w, (Ok tt, w ++ [user_action_line (data event)]) |}.

Definition AlertHandler (sid : nat) : EventSubscriber Console :=
  {| sub_id := sid;
     can_handle := λ event w, (Ok (isinstance event SystemAlertEvent), w);
     handle := λ event w, (Ok tt, w ++ [alert_line (data event)]) |}.

(** [d.get(key, default)] on the items of a dictionary. *)
Fixpoint dict_get (items : list (string * PyVal)) (key : string)
    (default : PyVal) : PyVal :=
  match items with
  | [] => default
  | (k, v) :: items' => if bool_decide (k = key) then v else dict_get items' key default
  end.

(** [lambda e: e.data.get('priority', 0) > 3], the filter of [main]. *)
Definition priority_filter {U} : Callback U bool :=
  λ e w,
    match data e with
    | VDict items =>
        match dict_get items "priority" (VInt 0) with
        | VInt z => (Ok (bool_decide (3 < z)%Z), w)
        | v => (Raise {| exn_class := "TypeError";
                         exn_msg := "'>' not supported between instances of '"
                                    +:+ type_name v +:+ "' and 'int'" |}, w)
        end
    | v => (Raise {| exn_class := "AttributeError";
                     exn_msg := "'" +:+ type_name v
                                +:+ "' object has no attribute 'get'" |}, w)
    end.

(** [SystemEventPublisher.publish] *)
Definition SystemEventPublisher_publish {U} (event : Event) : M U PyVal :=
  print ("Publishing event: " +:+ name event) ;;
  publish event ;;
  ret VNone.

Definition login_event : Event :=
  {| event_type := UserActionEvent; name := "login";
     data := VDict [("username", VStr "alice")] |}.
Definition cpu_high_event : Event :=
  {| event_type := SystemAlertEvent; name := "cpu_high";
     data := VDict [("priority", VInt 5)] |}.
Definition memory_low_event : Event :=
  {| event_type := SystemAlertEvent; name := "memory_low";
     data := VDict [("priority", VInt 2)] |}.
Definition user_updated_event : Event :=
  {| event_type := DataChangeEvent; name := "user_updated";
     data := VDict [("id", VInt 123)] |}.

(** The registrations of [main], up to the first publication. *)
Definition main_setup : M Console PyVal :=
  subscribe EventClass (LoggingHandler 0) ;;
  subscribe UserActionEvent (UserActionHandler 1) ;;
  subscribe SystemAlertEvent (AlertHandler 2) ;;
  add_filter SystemAlertEvent priority_filter.

Definition main : M Console PyVal :=
  main_setup ;;
  SystemEventPublisher_publish login_event ;;
  SystemEventPublisher_publish cpu_high_event ;;
  SystemEventPublisher_publish memory_low_event ;;
  SystemEventPublisher_publish user_updated_event ;;
  ret VNone.

(** [bus = EventBus()] with nothing written to the console yet. *)
Definition startup : State Console := {| bus := EventBus_init; world := [] |}.

Definition main_state : State Console := final (main_setup startup).

(** ** Vocabulary of the statements *)

Section Vocabulary.
Context {U : Type}.

(** The subscribers registered under exactly the class [c]. *)
Definition registered_at (b : EventBus U) (c : EventType)
  : list (EventSubscriber U) :=
  default [] (_subscribers b !! c).

(** The filters registered under exactly the class [c]. *)
Definition filters_at (b : EventBus U) (c : EventType)
  : list (Callback U bool) :=
  default [] (_filters b !! c).

(** The sequence [publish] iterates over for [event]: the list stored
    under [type(event)], nothing when the key is missing. *)
Definition candidates (b : EventBus U) (event : Event)
  : list (EventSubscriber U) :=
  registered_at b (event_type event).

(** The loop of [publish] over a list of subscribers. *)
Definition dispatch (event : Event) (l : list (EventSubscriber U)) : M U unit :=
  for_each l (attempt event).

(** The identities of the subscribers whose [can_handle] was called, and
    of those whose [handle] was called, in the order of the calls. *)
Definition evaluated (tr : list Call) : list nat :=
  omap (λ c, match c with can_handle_call sid _ => Some sid | _ => None end) tr.

Definition invoked (tr : list Call) : list nat :=
  omap (λ c, match c with handle_call sid _ => Some sid | _ => None end) tr.

(** The candidates of [l] that [_should_handle] accepts when their turn
    comes, the loop starting in [st]. *)
Fixpoint accepted (event : Event) (l : list (EventSubscriber U)) (st : State U)
  : list nat :=
  match l with
  | [] => []
  | s :: l' =>
      match result (_should_handle event s st) with
      | Ok true => [sub_id s]
      | _ => []
      end ++ accepted event l' (final (attempt event s st))
  end.
End Vocabulary.

(** *** Outcomes of a turn *)

Inductive SkipReason := self_rejected | filtered.

Inductive Outcome :=
| Delivered
| Skipped (reason : SkipReason)
| Failed (e : Exn).

(** The exception a recorded call ended with, if it raised. *)
Definition raised (c : Call) : option Exn :=
  match c with
  | can_handle_call _ (Raise e) => Some e
  | filter_call _ _ (Raise e) => Some e
  | handle_call _ (Raise e) => Some e
  | _ => None
  end.


Section Outcomes.
Context {U : Type}.

(** The outcome of the turn of [s] in state [st], from what the callbacks
    answer there. *)
Definition outcome (event : Event) (s : EventSubscriber U) (st : State U)
  : Outcome :=
  let sh := _should_handle event s st in
  match result sh with
  | Raise e => Failed e
  | Ok false =>
      match fst (can_handle s event (world st)) with
      | Ok false => Skipped self_rejected
      | _ => Skipped filtered
      end
  | Ok true =>
      match fst (handle s event (world (final sh))) with
      | Ok _ => Delivered
      | Raise e => Failed e
      end
  end.


Fixpoint outcomes (event : Event) (l : list (EventSubscriber U)) (st : State U)
  : list Outcome :=
  match l with
  | [] => []
  | s :: l' => outcome event s st
               :: outcomes event l' (final (attempt event s st))
  end.

(** A report, were one returned, would be a container with one entry per
    attempted subscriber; [report_entries] counts the entries of a value
    that is a container. *)
Definition report_entries (v : PyVal) : option nat :=
  match v with
  | VList items => Some (length items)
  | VDict items => Some (length items)
  | _ => None
  end.

Definition returns_report {A} (r : Run U PyVal) (l : list A) : Prop :=
  ∃ v, result r = Ok v ∧ report_entries v = Some (length l).

(** *** Sequences of calls on a bus *)

Inductive Op :=
| op_subscribe (c : EventType) (s : EventSubscriber U)
| op_add_filter (c : EventType) (f : Callback U bool)
| op_publish (event : Event).

Definition run_op (op : Op) : M U PyVal :=
  match op with
  | op_subscribe c s => subscribe c s
  | op_add_filter c f => add_filter c f
  | op_publish event => publish event
  end.

Fixpoint run_ops (ops : list Op) (st : State U) : State U :=
  match ops with
  | [] => st
  | op :: ops' => run_ops ops' (final (run_op op st))
  end.
End Outcomes.
Arguments Op U : clear implicits.

(** *** Subscribers and states for exercising the error paths *)

(** A subscriber that accepts every event and whose [handle] raises. *)
Definition RaisingHandler (sid : nat) : EventSubscriber Console :=
  {| sub_id := sid;
     can_handle := λ _ w, (Ok true, w);
     handle := λ _ w, (Raise {| exn_class := "RuntimeError";
                                exn_msg := "handler failed" |}, w) |}.

(** A subscriber that accepts nothing. *)
Definition DecliningHandler (sid : nat) : EventSubscriber Console :=
  {| sub_id := sid;
     can_handle := λ _ w, (Ok false, w);
     handle := λ event w, (Ok (), w ++ [log_line (name event) (data event)]) |}.

(** An alert whose priority is a string: the filter of [main] raises
    [TypeError] on it. *)
Definition bad_alert_event : Event :=
  {| event_type := SystemAlertEvent; name := "disk";
     data := VDict [("priority", VStr "high")] |}.

(** Two subscribers of user actions, the first of which fails. *)
Definition faulty_state : State Console :=
  run_ops [op_subscribe UserActionEvent (RaisingHandler 3);
           op_subscribe UserActionEvent (UserActionHandler 1)] startup.

(** The alerts of [main] with a second subscriber behind [AlertHandler]. *)
Definition alert_state : State Console :=
  run_ops [op_subscribe SystemAlertEvent (LoggingHandler 0)] main_state.

(** A declining subscriber in front of [AlertHandler]. *)
Definition declining_state : State Console :=
  run_ops [op_subscribe SystemAlertEvent (DecliningHandler 4);
           op_subscribe SystemAlertEvent (AlertHandler 2);
           op_add_filter SystemAlertEvent priority_filter] startup.

(** A filter on the root class, and one subscriber registered both at the
    root class and at [SystemAlertEvent]. *)
Definition root_filter_state : State Console :=
  run_ops [op_subscribe EventClass (LoggingHandler 0);
           op_subscribe SystemAlertEvent (LoggingHandler 0);
           op_add_filter EventClass priority_filter] startup.

(** *** Further vocabulary: printed lines and counts of calls *)

(** The lines the bus printed, in the order it printed them. *)
Definition printed (tr : list Call) : list string :=
  omap (λ c, match c with print_call line => Some line | _ => None end) tr.

(** The line a failed turn prints. *)
Definition failure_line (event : Event) (o : Outcome) : option string :=
  match o with
  | Failed e => Some (error_line event e)
  | _ => None
  end.

Definition count_calls (p : Call → bool) (tr : list Call) : nat :=
  length (List.filter p tr).

(** A call of [can_handle] that answered [True]. *)
Definition is_accept (c : Call) : bool :=
  match c with
  | can_handle_call _ (Ok true) => true
  | _ => false
  end.

(** A call of the [k]-th predicate of a filter list. *)
Definition is_filter (k : nat) (c : Call) : bool :=
  match c with
  | filter_call _ i _ => bool_decide (i = k)
  | _ => false
  end.

(** What [e.data.get('priority', 0)] gives when it is an integer. *)
Definition alert_priority (v : PyVal) : option Z :=
  match v with
  | VDict items =>
      match dict_get items "priority" (VInt 0) with
      | VInt z => Some z
      | _ => None
      end
  | _ => None
  end.

(** The exception the filter of [main] raises on the data of the fragment
    for which it has no answer: data that is not a dictionary has no [get],
    and a priority that is [None], a string, a list or a dictionary does not
    compare with 3. *)
Definition priority_failure (v : PyVal) : Exn :=
  match v with
  | VDict items =>
      {| exn_class := "TypeError";
         exn_msg := "'>' not supported between instances of '"
                    +:+ type_name (dict_get items "priority" (VInt 0))
                    +:+ "' and 'int'" |}
  | v => {| exn_class := "AttributeError";
            exn_msg := "'" +:+ type_name v +:+ "' object has no attribute 'get'" |}
  end.

(** A subscriber whose [can_handle] raises. *)
Definition BrokenHandler (sid : nat) : EventSubscriber Console :=
  {| sub_id := sid;
     can_handle := λ _ w, (Raise {| exn_class := "ValueError";
                                    exn_msg := "cannot decide" |}, w);
     handle := λ event w, (Ok (), w ++ [log_line (name event) (data event)]) |}.

(** A broken subscriber in front of [UserActionHandler]. *)
Definition broken_state : State Console :=
  run_ops [op_subscribe UserActionEvent (BrokenHandler 5);
           op_subscribe UserActionEvent (UserActionHandler 1)] startup.

(** Two filters on alerts, the second of which is never reached by an alert
    of low priority. *)
Definition two_filter_state : State Console :=
  run_ops [op_subscribe SystemAlertEvent (AlertHandler 2);
           op_add_filter SystemAlertEvent priority_filter;
           op_add_filter SystemAlertEvent (λ _ w, (Ok true, w))] startup.

(** What a run shows to the caller and to the outside: its result, the
    calls made and the outside world it leaves. *)
Definition observable {U A} (r : Run U A) : Res A * list Call * U :=
  (result r, trace r, world (final r)).

(** *** The filter chain as the specification words it *)

(** Every predicate of the list returns [True] for the event: the
    predicates are taken in the order of the list and, as a predicate may
    act on the outside world, each is asked in the world the one before
    left.  This is written from the words of the specification, without the
    bus: it is what [_should_handle] is compared with. *)
Fixpoint every_predicate_true {U} (fs : list (Callback U bool)) (event : Event)
    (w : U) : Prop :=
  match fs with
  | [] => True
  | f :: fs' => ∃ w', f event w = (Ok true, w') ∧ every_predicate_true fs' event w'
  end.

(** ** Callbacks that hold the bus

    Above, a callback acts on the outside world only.  A subscriber or a
    predicate may also hold a reference to the bus and call [subscribe] or
    [add_filter] on it while the bus is calling it, and it may raise an
    object that is no instance of [Exception].  This second, finer reading
    of [publish] and [_should_handle] takes both into account:

    - the world of a callback carries the calls of [subscribe] and
      [add_filter] it made (the [pending] requests, which name the object
      registered by its reference in the program); they have taken effect
      on the bus when the callback returns or raises;
    - the two loops walk the list that is stored in the dictionary, as the
      Python list iterator does: the element at the next index of the list
      as it is then, until the index reaches the end of the list, so that
      an object appended during the loop is visited by the same loop;
    - [except Exception] catches the exceptions that are instances of
      [Exception] and lets the others through.

    As such a loop need not end, the functions take fuel, and answer
    [None] when it runs out.  A callback that publishes an event itself is
    not represented. *)

Inductive Request :=
| req_subscribe (c : EventType) (ref : nat)
| req_add_filter (c : EventType) (ref : nat).

Record Live (W : Type) := {
  outside : W;
  pending : list Request
}.
Arguments outside {W} _.
Arguments pending {W} _.

(** What the bus does not own: the subscribers and predicates of the running
    program, by reference, and its exception classes. *)
Record Program (W : Type) := {
  subscriber_at : nat → EventSubscriber (Live W);
  predicate_at : nat → Callback (Live W) bool;
  isinstance_Exception : Exn → bool
}.
Arguments subscriber_at {W} _ _.
Arguments predicate_at {W} _ _.
Arguments isinstance_Exception {W} _ _.

Definition prefixed {U A} (tr : list Call) (o : option (Run U A))
  : option (Run U A) :=
  (λ r, {| result := result r; final := final r; trace := tr ++ trace r |}) <$> o.

Section Live_bus.
Context {W : Type}.
Variable P : Program W.

(** One call of [bus.subscribe] or [bus.add_filter] made by a callback. *)
Definition perform (st : State (Live W)) (r : Request) : State (Live W) :=
  match r with
  | req_subscribe c ref => final (subscribe c (subscriber_at P ref) st)
  | req_add_filter c ref => final (add_filter c (predicate_at P ref) st)
  end.

(** The state when a callback is back: its calls to the bus have been
    made, in their order. *)
Definition settle (st : State (Live W)) : State (Live W) :=
  foldl perform
    {| bus := bus st;
       world := {| outside := outside (world st); pending := [] |} |}
    (pending (world st)).

Definition call_live {A} (c : Callback (Live W) A) (mk : Res A → Call)
    (event : Event) : M (Live W) A :=
  λ st,
    let r := call c mk event st in
    {| result := result r; final := settle (final r); trace := trace r |}.

(** [all(filter_func(event) for filter_func in self._filters[event_type])],
    the generator walking the stored list; [k] is the index of the list
    iterator. *)
Fixpoint all_filters_live (fuel : nat) (ty : EventType) (k : nat)
    (event : Event) (st : State (Live W)) : option (Run (Live W) bool) :=
  match fuel with
  | 0 => None
  | S fuel' =>
      match filters_at (bus st) ty !! k with
      | None => Some (ret true st)
      | Some filter_func =>
          let r := call_live filter_func (filter_call ty k) event st in
          match result r with
          | Ok true =>
              prefixed (trace r)
                (all_filters_live fuel' ty (S k) event (final r))
          | _ => Some r
          end
      end
  end.

Definition _should_handle_live (fuel : nat) (event : Event)
    (subscriber : EventSubscriber (Live W)) (st : State (Live W))
  : option (Run (Live W) bool) :=
  let r := call_live (can_handle subscriber)
             (can_handle_call (sub_id subscriber)) event st in
  match result r with
  | Ok true =>
      prefixed (trace r)
        (all_filters_live fuel (event_type event) 0 event (final r))
  | _ => Some r
  end.

(** [except Exception as e: print(...)] on an exception raised in the
    [try]. *)
Definition except_Exception (event : Event) (e : Exn) (st : State (Live W))
    (tr : list Call) : Run (Live W) unit :=
  if isinstance_Exception P e
  then {| result := Ok (); final := st;
          trace := tr ++ [print_call (error_line event e)] |}
  else {| result := Raise e; final := st; trace := tr |}.

(** The body of the loop of [publish], with its [try]. *)
Definition attempt_live (fuel : nat) (event : Event)
    (subscriber : EventSubscriber (Live W)) (st : State (Live W))
  : option (Run (Live W) unit) :=
  sh ← _should_handle_live fuel event subscriber st;
  match result sh with
  | Ok true =>
      let h := call_live (handle subscriber)
                 (handle_call (sub_id subscriber)) event (final sh) in
      match result h with
      | Ok _ => Some {| result := Ok (); final := final h;
                        trace := trace sh ++ trace h |}
      | Raise e => Some (except_Exception event e (final h) (trace sh ++ trace h))
      end
  | Ok false => Some {| result := Ok (); final := final sh; trace := trace sh |}
  | Raise e => Some (except_Exception event e (final sh) (trace sh))
  end.

(** [for subscriber in self._subscribers[event_type]], from index [i] of
    the stored list on. *)
Fixpoint dispatch_live (fuel : nat) (event : Event) (i : nat)
    (st : State (Live W)) : option (Run (Live W) unit) :=
  match fuel with
  | 0 => None
  | S fuel' =>
      match candidates (bus st) event !! i with
      | None => Some (ret () st)
      | Some subscriber =>
          turn ← attempt_live fuel' event subscriber st;
          match result turn with
          | Ok _ =>
              prefixed (trace turn)
                (dispatch_live fuel' event (S i) (final turn))
          | Raise _ => Some turn
          end
      end
  end.

Definition publish_live (fuel : nat) (event : Event) (st : State (Live W))
  : option (Run (Live W) PyVal) :=
  match _subscribers (bus st) !! event_type event with
  | None => Some (ret VNone st)
  | Some _ =>
      r ← dispatch_live fuel event 0 st;
      Some {| result := match result r with
                        | Ok _ => Ok VNone
                        | Raise e => Raise e
                        end;
              final := final r; trace := trace r |}
  end.

(** [SystemEventPublisher.publish] *)
Definition SystemEventPublisher_publish_live (fuel : nat) (event : Event)
    (st : State (Live W)) : option (Run (Live W) PyVal) :=
  prefixed [print_call ("Publishing event: " +:+ name event)]
    (publish_live fuel event st).

(** A callback that makes no call to the bus. *)
Definition quiet {A} (c : Callback (Live W) A) : Prop :=
  ∀ event w, pending (snd (c event w)) = pending w.

(** A callback that raises instances of [Exception] only. *)
Definition raises_exceptions_only {A} (c : Callback (Live W) A) : Prop :=
  ∀ event w e, fst (c event w) = Raise e → isinstance_Exception P e = true.

(** No callback that a publication of [event] can reach calls the bus. *)
Definition leave_bus_alone (b : EventBus (Live W)) (event : Event) : Prop :=
  Forall (λ s, quiet (can_handle s) ∧ quiet (handle s)) (candidates b event)
  ∧ Forall quiet (filters_at b (event_type event)).

(** ... nor raises anything but instances of [Exception]. *)
Definition raise_exceptions_only (b : EventBus (Live W)) (event : Event) : Prop :=
  Forall (λ s, raises_exceptions_only (can_handle s)
               ∧ raises_exceptions_only (handle s)) (candidates b event)
  ∧ Forall raises_exceptions_only (filters_at b (event_type event)).

(** Fuel enough for the two loops when the lists are not extended. *)
Definition enough_fuel (b : EventBus (Live W)) (event : Event) (fuel : nat) : Prop :=
  (length (candidates b event) + length (filters_at b (event_type event)) + 2
   ≤ fuel)%nat.
End Live_bus.

(** The trace ends with a call that raised [e]. *)
Definition ends_raising (e : Exn) (tr : list Call) : Prop :=
  ∃ tr' c, tr = tr' ++ [c] ∧ raised c = Some e.

(** *** Samples for the finer reading *)

(** A callback of the file, which acts on the outside world and makes no
    call to the bus. *)
Definition lift_callback {W A} (c : Callback W A) : Callback (Live W) A :=
  λ event w,
    let '(r, o) := c event (outside w) in
    (r, {| outside := o; pending := pending w |}).

Definition lift_subscriber {W} (s : EventSubscriber W) : EventSubscriber (Live W) :=
  {| sub_id := sub_id s;
     can_handle := lift_callback (can_handle s);
     handle := lift_callback (handle s) |}.

(** A subscriber that accepts every event and whose [handle] calls
    [bus.subscribe(c, o)], [o] being the object of reference [ref]. *)
Definition RecruitingHandler (sid : nat) (c : EventType) (ref : nat)
  : EventSubscriber (Live Console) :=
  {| sub_id := sid;
     can_handle := λ _ w, (Ok true, w);
     handle := λ _ w,
       (Ok (), {| outside := outside w;
                  pending := pending w ++ [req_subscribe c ref] |}) |}.


(** The built-in classes that derive from [BaseException] and not from
    [Exception]. *)
Definition builtin_isinstance_Exception (e : Exn) : bool :=
  negb (bool_decide (exn_class e ∈ ["BaseException"; "BaseExceptionGroup";
                                    "GeneratorExit"; "KeyboardInterrupt";
                                    "SystemExit"; "CancelledError"])).

(** A program whose objects are the sample handlers of the file, the
    object of reference [n] being a [UserActionHandler]. *)
Definition sample_program : Program Console :=
  {| subscriber_at := λ ref, lift_subscriber (UserActionHandler ref);
     predicate_at := λ _, lift_callback priority_filter;
     isinstance_Exception := builtin_isinstance_Exception |}.

Definition live_startup : State (Live Console) :=
  {| bus := EventBus_init; world := {| outside := []; pending := [] |} |}.

(** A subscriber of user actions that subscribes another one when it
    handles an event. *)
Definition recruiting_state : State (Live Console) :=
  run_ops [op_subscribe UserActionEvent (RecruitingHandler 9 UserActionEvent 1)]
    live_startup.


(** The bus of [main], its handlers making no call to the bus. *)
Definition live_main_state : State (Live Console) :=
  run_ops [op_subscribe EventClass (lift_subscriber (LoggingHandler 0));
           op_subscribe UserActionEvent (lift_subscriber (UserActionHandler 1));
           op_subscribe SystemAlertEvent (lift_subscriber (AlertHandler 2));
           op_add_filter SystemAlertEvent (lift_callback priority_filter)]
    live_startup.

(** ** The monad and the loop *)

Section Loop_facts.
Context {U : Type}.
Implicit Types (st : State U) (event : Event) (s : EventSubscriber U).
Implicit Types (l : list (EventSubscriber U)).

Lemma evaluated_app (t1 t2 : list Call) :
  evaluated (t1 ++ t2) = evaluated t1 ++ evaluated t2.
Proof. apply omap_app. Qed.

Lemma invoked_app (t1 t2 : list Call) :
  invoked (t1 ++ t2) = invoked t1 ++ invoked t2.
Proof. apply omap_app. Qed.

Lemma bind_ok {A B} (m : M U A) (k : A → M U B) st a :
  result (m st) = Ok a →
  bind m k st = {| result := result (k a (final (m st)));
                   final := final (k a (final (m st)));
                   trace := trace (m st) ++ trace (k a (final (m st))) |}.
Proof. intros H. unfold bind. by rewrite H. Qed.

Lemma bind_raise {A B} (m : M U A) (k : A → M U B) st e :
  result (m st) = Raise e →
  bind m k st = {| result := Raise e; final := final (m st);
                   trace := trace (m st) |}.
Proof. intros H. unfold bind. by rewrite H. Qed.

Lemma call_bus {A} (c : Callback U A) mk event st :
  bus (final (call c mk event st)) = bus st.
Proof. unfold call. by destruct (c event (world st)). Qed.

Lemma call_eq {A} (c : Callback U A) mk event st r w :
  c event (world st) = (r, w) →
  call c mk event st = {| result := r;
                          final := {| bus := bus st; world := w |};
                          trace := [mk r] |}.
Proof. intros H. unfold call. by rewrite H. Qed.

(** *** [all] over the filters *)

Lemma all_filters_bus ty fs : ∀ k event st,
  bus (final (all_filters ty k fs event st)) = bus st.
Proof.
  induction fs as [|f fs IH]; intros k event st; [done|].
  simpl. unfold bind.
  destruct (result (call f (filter_call ty k) event st)) as [[]|e] eqn:E; simpl.
  - by rewrite IH, call_bus.
  - apply call_bus.
  - apply call_bus.
Qed.

(** Only the predicates of the list are called, each at most once, under
    the class the list was looked up with. *)
Lemma all_filters_calls ty fs : ∀ k event st c,
  c ∈ trace (all_filters ty k fs event st) →
  ∃ i r, c = filter_call ty i r ∧ k ≤ i < k + length fs.
Proof.
  induction fs as [|f fs IH]; intros k event st c; simpl.
  - by intros ?%elem_of_nil.
  - unfold bind. destruct (f event (world st)) as [r w] eqn:Ef.
    rewrite (call_eq _ _ _ _ _ _ Ef). simpl.
    destruct r as [[]|e]; simpl.
    + intros [->|Hc]%elem_of_cons.
      * exists k, (Ok true). split; [done | lia].
      * apply IH in Hc as (i & r & -> & Hi). exists i, r. split; [done | lia].
    + intros ->%list_elem_of_singleton.
      exists k, (Ok false). split; [done | lia].
    + intros ->%list_elem_of_singleton.
      exists k, (Raise e). split; [done | lia].
Qed.

(** [all] answers [True] exactly when every predicate of the list was
    called and answered [True]. *)
Lemma all_filters_true ty fs : ∀ k event st,
  result (all_filters ty k fs event st) = Ok true ↔
  ∀ i, i < length fs →
       filter_call ty (k + i) (Ok true) ∈ trace (all_filters ty k fs event st).
Proof.
  induction fs as [|f fs IH]; intros k event st; simpl.
  - split; [intros _ i; lia | done].
  - unfold bind. destruct (f event (world st)) as [r w] eqn:Ef.
    rewrite (call_eq _ _ _ _ _ _ Ef). simpl.
    destruct r as [[]|e]; simpl.
    + rewrite IH. split.
      * intros H [|i] Hi.
        -- rewrite Nat.add_0_r. apply elem_of_cons. by left.
        -- apply elem_of_cons. right.
           replace (k + S i) with (S k + i) by lia. apply H. lia.
      * intros H i Hi.
        specialize (H (S i) ltac:(lia)).
        apply elem_of_cons in H as [H|H]; [injection H; lia|].
        by replace (k + S i) with (S k + i) in H by lia.
    + split; [done|]. intros H. specialize (H 0 ltac:(lia)).
      by apply list_elem_of_singleton in H.
    + split; [done|]. intros H. specialize (H 0 ltac:(lia)).
      by apply list_elem_of_singleton in H.
Qed.

(** A predicate that raises ends the evaluation of [all] with its
    exception. *)
Lemma all_filters_raise ty fs : ∀ k event st i e,
  filter_call ty i (Raise e) ∈ trace (all_filters ty k fs event st) →
  result (all_filters ty k fs event st) = Raise e.
Proof.
  induction fs as [|f fs IH]; intros k event st i e; simpl.
  - by intros ?%elem_of_nil.
  - unfold bind. destruct (f event (world st)) as [r w] eqn:Ef.
    rewrite (call_eq _ _ _ _ _ _ Ef). simpl.
    destruct r as [[]|e']; simpl.
    + intros [?|Hc]%elem_of_cons; [done | by eapply IH].
    + by intros ?%list_elem_of_singleton.
    + intros H%list_elem_of_singleton. by injection H as _ ->.
Qed.

(** *** [_should_handle] *)

Lemma should_handle_accepting event s st w :
  can_handle s event (world st) = (Ok true, w) →
  let af := all_filters (event_type event) 0
              (filters_at (bus st) (event_type event)) event
              {| bus := bus st; world := w |} in
  _should_handle event s st =
    {| result := result af; final := final af;
       trace := can_handle_call (sub_id s) (Ok true) :: trace af |}.
Proof.
  intros Hc af. unfold _should_handle, bind.
  rewrite (call_eq _ _ _ _ _ _ Hc). simpl. subst af. unfold filters_at.
  by destruct (_filters (bus st) !! event_type event).
Qed.

Lemma should_handle_rejecting event s st w :
  can_handle s event (world st) = (Ok false, w) →
  _should_handle event s st =
    {| result := Ok false; final := {| bus := bus st; world := w |};
       trace := [can_handle_call (sub_id s) (Ok false)] |}.
Proof.
  intros Hc. unfold _should_handle, bind.
  by rewrite (call_eq _ _ _ _ _ _ Hc).
Qed.

Lemma should_handle_raising event s st e w :
  can_handle s event (world st) = (Raise e, w) →
  _should_handle event s st =
    {| result := Raise e; final := {| bus := bus st; world := w |};
       trace := [can_handle_call (sub_id s) (Raise e)] |}.
Proof.
  intros Hc. unfold _should_handle, bind.
  by rewrite (call_eq _ _ _ _ _ _ Hc).
Qed.

Lemma should_handle_bus event s st :
  bus (final (_should_handle event s st)) = bus st.
Proof.
  destruct (can_handle s event (world st)) as [[[]|e] w] eqn:Hc.
  - rewrite (should_handle_accepting _ _ _ _ Hc). simpl.
    by rewrite all_filters_bus.
  - by rewrite (should_handle_rejecting _ _ _ _ Hc).
  - by rewrite (should_handle_raising _ _ _ _ _ Hc).
Qed.

(** The trace of [_should_handle]: the call of [can_handle], then calls of
    filters of the event's own class only. *)
Lemma should_handle_trace event s st :
  ∃ r tl,
    trace (_should_handle event s st) = can_handle_call (sub_id s) r :: tl ∧
    fst (can_handle s event (world st)) = r ∧
    ∀ c, c ∈ tl →
         ∃ i r', c = filter_call (event_type event) i r' ∧
                 i < length (filters_at (bus st) (event_type event)).
Proof.
  destruct (can_handle s event (world st)) as [[[]|e] w] eqn:Hc.
  - rewrite (should_handle_accepting _ _ _ _ Hc). simpl.
    eexists _, _. split; [done|]. split; [done|].
    intros c (i & r' & -> & Hi)%all_filters_calls. exists i, r'.
    split; [done | lia].
  - rewrite (should_handle_rejecting _ _ _ _ Hc). simpl.
    eexists _, _. split; [done|]. split; [done|]. by intros c ?%elem_of_nil.
  - rewrite (should_handle_raising _ _ _ _ _ Hc). simpl.
    eexists _, _. split; [done|]. split; [done|]. by intros c ?%elem_of_nil.
Qed.

Lemma should_handle_evaluated event s st :
  evaluated (trace (_should_handle event s st)) = [sub_id s].
Proof.
  destruct (should_handle_trace event s st) as (r & tl & -> & _ & Htl).
  simpl. f_equal. induction tl as [|c tl IH]; [done|].
  destruct (Htl c) as (i & r' & -> & _); [by left|].
  simpl. apply IH. intros c' Hc'. apply Htl. by right.
Qed.

Lemma should_handle_invoked event s st :
  invoked (trace (_should_handle event s st)) = [].
Proof.
  destruct (should_handle_trace event s st) as (r & tl & -> & _ & Htl).
  simpl. induction tl as [|c tl IH]; [done|].
  destruct (Htl c) as (i & r' & -> & _); [by left|].
  simpl. apply IH. intros c' Hc'. apply Htl. by right.
Qed.

(** *** One turn of the loop *)

Lemma attempt_delivering event s st w :
  result (_should_handle event s st) = Ok true →
  handle s event (world (final (_should_handle event s st))) = (Ok (), w) →
  attempt event s st =
    {| result := Ok (); final := {| bus := bus st; world := w |};
       trace := trace (_should_handle event s st)
                ++ [handle_call (sub_id s) (Ok ())] |}.
Proof.
  intros Hsh Hh. unfold attempt, try_except.
  rewrite (bind_ok _ _ _ _ Hsh). simpl.
  rewrite (call_eq _ _ _ _ _ _ Hh). simpl.
  by rewrite should_handle_bus.
Qed.

Lemma attempt_failing event s st e w :
  result (_should_handle event s st) = Ok true →
  handle s event (world (final (_should_handle event s st))) = (Raise e, w) →
  attempt event s st =
    {| result := Ok (); final := {| bus := bus st; world := w |};
       trace := trace (_should_handle event s st)
                ++ [handle_call (sub_id s) (Raise e);
                    print_call (error_line event e)] |}.
Proof.
  intros Hsh Hh. unfold attempt, try_except.
  rewrite (bind_ok _ _ _ _ Hsh). simpl.
  rewrite (call_eq _ _ _ _ _ _ Hh). simpl.
  by rewrite should_handle_bus, <- app_assoc.
Qed.

Lemma attempt_skipping event s st :
  result (_should_handle event s st) = Ok false →
  attempt event s st =
    {| result := Ok (); final := final (_should_handle event s st);
       trace := trace (_should_handle event s st) |}.
Proof.
  intros Hsh. unfold attempt, try_except.
  rewrite (bind_ok _ _ _ _ Hsh). simpl. by rewrite app_nil_r.
Qed.

Lemma attempt_blocked event s st e :
  result (_should_handle event s st) = Raise e →
  attempt event s st =
    {| result := Ok (); final := final (_should_handle event s st);
       trace := trace (_should_handle event s st)
                ++ [print_call (error_line event e)] |}.
Proof.
  intros Hsh. unfold attempt, try_except.
  by rewrite (bind_raise _ _ _ _ Hsh).
Qed.

(** The four ways a turn can go. *)
Lemma attempt_cases event s st :
  let sh := _should_handle event s st in
  (∃ w, result sh = Ok true ∧ handle s event (world (final sh)) = (Ok (), w)) ∨
  (∃ e w, result sh = Ok true ∧ handle s event (world (final sh)) = (Raise e, w)) ∨
  result sh = Ok false ∨
  (∃ e, result sh = Raise e).
Proof.
  intros sh. destruct (result sh) as [[]|e] eqn:Hsh.
  - destruct (handle s event (world (final sh))) as [[[]|e] w] eqn:Hh.
    + left. by exists w.
    + right; left. by exists e, w.
  - right; right; by left.
  - right; right; right. by exists e.
Qed.

(** In the first reading a turn never raises: whatever [can_handle], a
    filter or [handle] raised is an [Exception] and has been caught. *)
Lemma attempt_result event s st : result (attempt event s st) = Ok ().
Proof.
  destruct (attempt_cases event s st)
    as [(w & H1 & H2)|[(e & w & H1 & H2)|[H1|(e & H1)]]].
  - by rewrite (attempt_delivering _ _ _ _ H1 H2).
  - by rewrite (attempt_failing _ _ _ _ _ H1 H2).
  - by rewrite (attempt_skipping _ _ _ H1).
  - by rewrite (attempt_blocked _ _ _ _ H1).
Qed.

Lemma attempt_bus event s st : bus (final (attempt event s st)) = bus st.
Proof.
  destruct (attempt_cases event s st)
    as [(w & H1 & H2)|[(e & w & H1 & H2)|[H1|(e & H1)]]].
  - by rewrite (attempt_delivering _ _ _ _ H1 H2).
  - by rewrite (attempt_failing _ _ _ _ _ H1 H2).
  - rewrite (attempt_skipping _ _ _ H1). apply should_handle_bus.
  - rewrite (attempt_blocked _ _ _ _ H1). apply should_handle_bus.
Qed.

Lemma attempt_evaluated event s st :
  evaluated (trace (attempt event s st)) = [sub_id s].
Proof.
  unfold evaluated.
  destruct (attempt_cases event s st)
    as [(w & H1 & H2)|[(e & w & H1 & H2)|[H1|(e & H1)]]].
  - rewrite (attempt_delivering _ _ _ _ H1 H2). simpl.
    rewrite omap_app. simpl. rewrite app_nil_r. apply should_handle_evaluated.
  - rewrite (attempt_failing _ _ _ _ _ H1 H2). simpl.
    rewrite omap_app. simpl. rewrite app_nil_r. apply should_handle_evaluated.
  - rewrite (attempt_skipping _ _ _ H1). apply should_handle_evaluated.
  - rewrite (attempt_blocked _ _ _ _ H1). simpl.
    rewrite omap_app. simpl. rewrite app_nil_r. apply should_handle_evaluated.
Qed.

(** [handle] is called in a turn exactly when [_should_handle] answered
    [True]. *)
Lemma attempt_invoked event s st :
  invoked (trace (attempt event s st)) =
    match result (_should_handle event s st) with
    | Ok true => [sub_id s]
    | _ => []
    end.
Proof.
  pose proof (should_handle_invoked event s st) as Hi. unfold invoked in *.
  destruct (attempt_cases event s st)
    as [(w & H1 & H2)|[(e & w & H1 & H2)|[H1|(e & H1)]]].
  - rewrite (attempt_delivering _ _ _ _ H1 H2), H1. simpl.
    by rewrite omap_app, Hi.
  - rewrite (attempt_failing _ _ _ _ _ H1 H2), H1. simpl.
    by rewrite omap_app, Hi.
  - by rewrite (attempt_skipping _ _ _ H1), H1.
  - rewrite (attempt_blocked _ _ _ _ H1), H1. simpl.
    by rewrite omap_app, Hi.
Qed.

(** *** The whole loop *)

Lemma dispatch_nil event st :
  dispatch event [] st = {| result := Ok (); final := st; trace := [] |}.
Proof. done. Qed.

Lemma dispatch_result event l : ∀ st, result (dispatch event l st) = Ok ().
Proof.
  induction l as [|s l IH]; intros st; [done|].
  unfold dispatch. simpl.
  rewrite (bind_ok _ _ _ _ (attempt_result event s st)). simpl. apply IH.
Qed.

Lemma dispatch_cons event s l st :
  dispatch event (s :: l) st =
    {| result := Ok ();
       final := final (dispatch event l (final (attempt event s st)));
       trace := trace (attempt event s st)
                ++ trace (dispatch event l (final (attempt event s st))) |}.
Proof.
  unfold dispatch at 1. simpl.
  rewrite (bind_ok _ _ _ _ (attempt_result event s st)).
  fold (dispatch event l). by rewrite dispatch_result.
Qed.

Lemma dispatch_app event l1 l2 : ∀ st,
  dispatch event (l1 ++ l2) st =
    {| result := Ok ();
       final := final (dispatch event l2 (final (dispatch event l1 st)));
       trace := trace (dispatch event l1 st)
                ++ trace (dispatch event l2 (final (dispatch event l1 st))) |}.
Proof.
  induction l1 as [|s l1 IH]; intros st.
  - change ([] ++ l2) with l2. rewrite dispatch_nil. simpl.
    pose proof (dispatch_result event l2 st) as Hr.
    destruct (dispatch event l2 st). simpl in Hr. by rewrite Hr.
  - simpl. rewrite !dispatch_cons, IH. simpl. by rewrite app_assoc.
Qed.

Lemma dispatch_bus event l : ∀ st, bus (final (dispatch event l st)) = bus st.
Proof.
  induction l as [|s l IH]; intros st; [done|].
  rewrite dispatch_cons. simpl. by rewrite IH, attempt_bus.
Qed.

(** Every subscriber of the list gets its turn, in the order of the list,
    whatever happened in the turns before. *)
Lemma dispatch_evaluated event l : ∀ st,
  evaluated (trace (dispatch event l st)) = map sub_id l.
Proof.
  induction l as [|s l IH]; intros st; [done|].
  rewrite dispatch_cons. simpl.
  by rewrite evaluated_app, IH, attempt_evaluated.
Qed.

(** The handlers called are those of the accepted subscribers, in order. *)
Lemma dispatch_invoked event l : ∀ st,
  invoked (trace (dispatch event l st)) = accepted event l st.
Proof.
  induction l as [|s l IH]; intros st; [done|].
  rewrite dispatch_cons. simpl.
  by rewrite invoked_app, IH, attempt_invoked.
Qed.

(** [publish] is its loop over the candidates, and evaluates to [None]. *)
Lemma publish_dispatch event st :
  publish event st =
    {| result := Ok VNone;
       final := final (dispatch event (candidates (bus st) event) st);
       trace := trace (dispatch event (candidates (bus st) event) st) |}.
Proof.
  unfold publish, candidates, registered_at, bind, get_subscribers. simpl.
  destruct (_subscribers (bus st) !! event_type event) as [l|]; simpl; [|done].
  fold (dispatch event l). rewrite dispatch_result. simpl.
  by rewrite app_nil_r.
Qed.
End Loop_facts.

(** ** Failure isolation *)

Section Isolation.
Context {U : Type}.
Implicit Types (st : State U) (event : Event) (s : EventSubscriber U).
Implicit Types (pre post : list (EventSubscriber U)).

(** [publish] with the candidate list split around one candidate: the
    loop reaches [s] in the state the turns of [pre] leave behind. *)
Lemma publish_split event st pre s post :
  candidates (bus st) event = pre ++ s :: post →
  let st1 := final (dispatch event pre st) in
  let turn := attempt event s st1 in
  publish event st =
    {| result := Ok VNone;
       final := final (dispatch event post (final turn));
       trace := trace (dispatch event pre st) ++ trace turn
                ++ trace (dispatch event post (final turn)) |}.
Proof.
  intros Hc st1 turn. rewrite publish_dispatch, Hc.
  by rewrite dispatch_app, dispatch_cons.
Qed.

Lemma should_handle_filter_raise event s st k e :
  filter_call (event_type event) k (Raise e) ∈ trace (_should_handle event s st) →
  result (_should_handle event s st) = Raise e.
Proof.
  destruct (can_handle s event (world st)) as [[[]|e'] w] eqn:Hc.
  - rewrite (should_handle_accepting _ _ _ _ Hc). simpl.
    intros [?|H]%elem_of_cons; [done|]. by eapply all_filters_raise.
  - rewrite (should_handle_rejecting _ _ _ _ Hc). simpl.
    by intros ?%list_elem_of_singleton.
  - rewrite (should_handle_raising _ _ _ _ _ Hc). simpl.
    by intros ?%list_elem_of_singleton.
Qed.

(** C3. When the [handle] of a candidate raises, [publish] catches the
    exception at once (only the error line is printed), evaluates to
    [None] instead of raising, and goes on with the loop: every later
    candidate has its [can_handle] called, in order, and its [handle]
    called whenever [_should_handle] accepts it. *)
Theorem handler_failure_is_isolated event st pre s post e w :
  candidates (bus st) event = pre ++ s :: post →
  let st1 := final (dispatch event pre st) in
  let sh := _should_handle event s st1 in
  result sh = Ok true →
  handle s event (world (final sh)) = (Raise e, w) →
  let st2 := {| bus := bus st; world := w |} in
  result (publish event st) = Ok VNone ∧
  trace (publish event st) =
    trace (dispatch event pre st) ++ trace sh
    ++ [handle_call (sub_id s) (Raise e); print_call (error_line event e)]
    ++ trace (dispatch event post st2) ∧
  final (publish event st) = final (dispatch event post st2) ∧
  evaluated (trace (dispatch event post st2)) = map sub_id post ∧
  invoked (trace (dispatch event post st2)) = accepted event post st2.
Proof.
  intros Hc st1 sh Hsh Hh st2.
  rewrite (publish_split _ _ _ _ _ Hc). simpl. fold st1.
  rewrite (attempt_failing _ _ _ _ _ Hsh Hh). simpl.
  replace (bus st1) with (bus st) by (symmetry; apply dispatch_bus).
  fold st2 sh. rewrite <- !app_assoc. simpl.
  split_and!; [done | done | done | apply dispatch_evaluated | apply dispatch_invoked].
Qed.

(** C9. When a filter predicate raises while [_should_handle] runs for a
    candidate, [handle] is not called for that candidate, the exception is
    caught (its line is printed) and [publish] evaluates to [None]; the
    loop goes on and every later candidate gets its turn. *)
Theorem filter_failure_is_isolated event st pre s post k e :
  candidates (bus st) event = pre ++ s :: post →
  let st1 := final (dispatch event pre st) in
  let sh := _should_handle event s st1 in
  filter_call (event_type event) k (Raise e) ∈ trace sh →
  result (publish event st) = Ok VNone ∧
  invoked (trace (attempt event s st1)) = [] ∧
  trace (publish event st) =
    trace (dispatch event pre st) ++ trace sh
    ++ [print_call (error_line event e)]
    ++ trace (dispatch event post (final sh)) ∧
  final (publish event st) = final (dispatch event post (final sh)) ∧
  evaluated (trace (dispatch event post (final sh))) = map sub_id post ∧
  invoked (trace (dispatch event post (final sh))) = accepted event post (final sh).
Proof.
  intros Hc st1 sh Hk.
  apply should_handle_filter_raise in Hk as Hsh. fold sh in Hsh.
  rewrite (publish_split _ _ _ _ _ Hc). simpl. fold st1.
  rewrite attempt_invoked. fold sh. rewrite Hsh.
  rewrite (attempt_blocked _ _ _ _ Hsh). simpl. fold sh.
  rewrite <- !app_assoc.
  split_and!; [done | done | done | done | apply dispatch_evaluated
              | apply dispatch_invoked].
Qed.

(** C8. A candidate whose [can_handle] answers [False] is skipped: the
    only call of its turn is that of [can_handle], so no filter predicate
    is evaluated for it and its [handle] is not called, and the loop goes
    on with the next candidate. *)
Theorem self_rejection_skips_filters event st pre s post w :
  candidates (bus st) event = pre ++ s :: post →
  let st1 := final (dispatch event pre st) in
  can_handle s event (world st1) = (Ok false, w) →
  let st2 := {| bus := bus st; world := w |} in
  trace (attempt event s st1) = [can_handle_call (sub_id s) (Ok false)] ∧
  result (publish event st) = Ok VNone ∧
  trace (publish event st) =
    trace (dispatch event pre st)
    ++ [can_handle_call (sub_id s) (Ok false)]
    ++ trace (dispatch event post st2) ∧
  evaluated (trace (dispatch event post st2)) = map sub_id post ∧
  invoked (trace (dispatch event post st2)) = accepted event post st2.
Proof.
  intros Hc st1 Hch st2.
  pose proof (should_handle_rejecting _ _ _ _ Hch) as Hsh.
  assert (attempt event s st1 =
          {| result := Ok (); final := st2;
             trace := [can_handle_call (sub_id s) (Ok false)] |}) as Hturn.
  { rewrite attempt_skipping; rewrite Hsh; [|done]. simpl. subst st2.
    by replace (bus st1) with (bus st) by (symmetry; apply dispatch_bus). }
  rewrite (publish_split _ _ _ _ _ Hc). simpl. fold st1. rewrite Hturn. simpl.
  split_and!; [done | done | done | apply dispatch_evaluated
              | apply dispatch_invoked].
Qed.
End Isolation.

(** ** Registration *)

Section Registry.
Context {U : Type}.
Implicit Types (st : State U) (event : Event) (s : EventSubscriber U).

Lemma issubclass_refl (c : EventType) : issubclass c c = true.
Proof. destruct c; cbn [issubclass]; by rewrite bool_decide_eq_true_2. Qed.

(** [subscribe] as one update of the dictionary. *)
Lemma subscribe_eq c s st :
  subscribe c s st =
    {| result := Ok VNone;
       final := {| bus := {| _subscribers :=
                               <[c := registered_at (bus st) c ++ [s]]>
                                 (_subscribers (bus st));
                             _filters := _filters (bus st) |};
                   world := world st |};
       trace := [] |}.
Proof.
  unfold subscribe, registered_at, bind, get_subscribers, set_subscribers,
    getitem, ret. simpl.
  destruct (_subscribers (bus st) !! c) as [l|] eqn:E; simpl.
  - by rewrite E.
  - rewrite lookup_insert_eq. simpl. by rewrite insert_insert_eq.
Qed.

Lemma add_filter_eq c f st :
  add_filter c f st =
    {| result := Ok VNone;
       final := {| bus := {| _subscribers := _subscribers (bus st);
                             _filters :=
                               <[c := filters_at (bus st) c ++ [f]]>
                                 (_filters (bus st)) |};
                   world := world st |};
       trace := [] |}.
Proof.
  unfold add_filter, filters_at, bind, get_filters, set_filters, getitem, ret.
  simpl.
  destruct (_filters (bus st) !! c) as [l|] eqn:E; simpl.
  - by rewrite E.
  - rewrite lookup_insert_eq. simpl. by rewrite insert_insert_eq.
Qed.

(** C4. [subscribe] stores under the class the former list (the empty one
    when the class had none) with the subscriber appended, and leaves the
    other classes alone.  After [subscribe(c, s1)] then [subscribe(c, s2)],
    publishing an event of class [c] gives the former subscribers their
    turns, then [s1] its turn and only then [s2] its turn: the calls of
    [can_handle] and of [handle] follow the order of registration. *)
Theorem subscribe_appends_in_dispatch_order c s1 s2 event st :
  event_type event = c →
  let old := registered_at (bus st) c in
  let st1 := final (subscribe c s1 st) in
  let st2 := final (subscribe c s2 st1) in
  _subscribers (bus st1) !! c = Some (old ++ [s1]) ∧
  (∀ c', c' ≠ c → _subscribers (bus st1) !! c' = _subscribers (bus st) !! c') ∧
  candidates (bus st2) event = old ++ [s1; s2] ∧
  (let stA := final (dispatch event old st2) in
   let stB := final (attempt event s1 stA) in
   trace (publish event st2) =
     trace (dispatch event old st2)
     ++ trace (attempt event s1 stA) ++ trace (attempt event s2 stB) ∧
   evaluated (trace (publish event st2)) = map sub_id old ++ [sub_id s1; sub_id s2] ∧
   invoked (trace (publish event st2)) =
     accepted event old st2 ++ accepted event [s1] stA ++ accepted event [s2] stB).
Proof.
  intros Hty old st1 st2.
  assert (_subscribers (bus st1) !! c = Some (old ++ [s1])) as H1.
  { subst st1. rewrite subscribe_eq. simpl. apply lookup_insert_eq. }
  assert (candidates (bus st2) event = old ++ [s1; s2]) as H2.
  { unfold candidates. rewrite Hty. subst st2. rewrite subscribe_eq. simpl.
    unfold registered_at at 1. simpl. rewrite lookup_insert_eq. simpl.
    unfold registered_at at 1. rewrite H1. simpl. by rewrite <- app_assoc. }
  split_and!; [done| |done|].
  - intros c' Hc'. subst st1. rewrite subscribe_eq. simpl.
    by apply lookup_insert_ne.
  - intros stA stB.
    assert (trace (publish event st2) =
            trace (dispatch event old st2)
            ++ trace (attempt event s1 stA) ++ trace (attempt event s2 stB)) as Ht.
    { rewrite publish_dispatch, H2. simpl.
      rewrite dispatch_app, !dispatch_cons, dispatch_nil. simpl.
      fold stA. fold stB. by rewrite app_nil_r. }
    split_and!; [done| |].
    + rewrite publish_dispatch, H2. simpl. rewrite dispatch_evaluated.
      by rewrite map_app.
    + rewrite Ht, !invoked_app, dispatch_invoked, !attempt_invoked. simpl.
      by rewrite !app_nil_r.
Qed.

(** C5 (amended). When no subscriber is registered at the class of the
    event nor at any class it derives from, [publish] evaluates to [None]
    (the bus has no report to return), makes no call at all, raises
    nothing and leaves the state untouched. *)
Theorem publish_without_subscribers event st :
  (∀ a, issubclass (event_type event) a = true → registered_at (bus st) a = []) →
  publish event st = {| result := Ok VNone; final := st; trace := [] |}.
Proof.
  intros H. rewrite publish_dispatch. unfold candidates.
  by rewrite (H _ (issubclass_refl _)).
Qed.
End Registry.

(** ** Filters *)

Section Filters.
Context {U : Type}.
Implicit Types (st : State U) (event : Event) (s : EventSubscriber U).

(** [_should_handle] answers [True] only for a subscriber that accepts. *)
Lemma should_handle_true_accepts event s st :
  result (_should_handle event s st) = Ok true →
  ∃ w, can_handle s event (world st) = (Ok true, w).
Proof.
  destruct (can_handle s event (world st)) as [[[]|e] w] eqn:Hc.
  - by exists w.
  - by rewrite (should_handle_rejecting _ _ _ _ Hc).
  - by rewrite (should_handle_raising _ _ _ _ _ Hc).
Qed.

(** For a subscriber that accepts, the answer of [_should_handle] is that
    of the filters of the event's class. *)
Lemma should_handle_passes event s st w :
  can_handle s event (world st) = (Ok true, w) →
  result (_should_handle event s st) = Ok true ↔
  ∀ k, k < length (filters_at (bus st) (event_type event)) →
       filter_call (event_type event) k (Ok true)
         ∈ trace (_should_handle event s st).
Proof.
  intros Hc. rewrite (should_handle_accepting _ _ _ _ Hc). simpl.
  rewrite all_filters_true. simpl.
  split; intros H k Hk; specialize (H k Hk).
  - by right.
  - by apply elem_of_cons in H as [?|?].
Qed.

(** When the predicates are functions of the event alone, as the filter of
    [main] is on well-formed alerts, the answer is their conjunction. *)
Lemma all_filters_pure ty event (fs : list (Callback U bool))
    (gs : list (Event → bool)) :
  Forall2 (λ f g, ∀ u, f event u = (Ok (g event), u)) fs gs →
  ∀ k st, result (all_filters ty k fs event st) = Ok (forallb (λ g, g event) gs).
Proof.
  induction 1 as [|f g fs gs Hf _ IH]; intros k st; [done|].
  simpl. unfold bind. rewrite (call_eq _ _ _ _ _ _ (Hf (world st))). simpl.
  destruct (g event); [apply IH | done].
Qed.

Lemma should_handle_pure_filters event s st w (gs : list (Event → bool)) :
  can_handle s event (world st) = (Ok true, w) →
  Forall2 (λ f g, ∀ u, f event u = (Ok (g event), u))
    (filters_at (bus st) (event_type event)) gs →
  result (_should_handle event s st) = Ok (forallb (λ g, g event) gs).
Proof.
  intros Hc Hfs. rewrite (should_handle_accepting _ _ _ _ Hc). simpl.
  by apply all_filters_pure.
Qed.

(** The answer of [all] against the specification's reading. *)
Lemma all_filters_every_predicate_true ty (fs : list (Callback U bool)) event :
  ∀ k st, result (all_filters ty k fs event st) = Ok true
          ↔ every_predicate_true fs event (world st).
Proof.
  induction fs as [|f fs IH]; intros k st; simpl.
  - done.
  - unfold bind. destruct (f event (world st)) as [r w] eqn:Ef.
    rewrite (call_eq _ _ _ _ _ _ Ef). simpl.
    destruct r as [[]|e]; simpl.
    + rewrite IH. simpl. split.
      * intros H. by exists w.
      * by intros (w' & [= <-] & H).
    + split; [done | by intros (w' & [=] & _)].
    + split; [done | by intros (w' & [=] & _)].
Qed.

(** C6. For a candidate whose [can_handle] answers [True], [_should_handle]
    answers [True] exactly when every predicate registered under the very
    class of the event returns [True] for the event; when the predicates
    depend on the event alone its answer is their conjunction; and it
    answers [True] exactly when every registered predicate has been called
    and has answered [True].  With no predicate registered under that class
    (key missing, or empty list) it answers [True] and [handle] is
    called. *)
Theorem filters_pass_iff_all_true event s st w :
  can_handle s event (world st) = (Ok true, w) →
  let fs := filters_at (bus st) (event_type event) in
  let sh := _should_handle event s st in
  (result sh = Ok true ↔ every_predicate_true fs event w) ∧
  (∀ gs : list (Event → bool),
     Forall2 (λ f g, ∀ u, f event u = (Ok (g event), u)) fs gs →
     result sh = Ok (forallb (λ g, g event) gs)) ∧
  (result sh = Ok true ↔
   ∀ k, k < length fs → filter_call (event_type event) k (Ok true) ∈ trace sh) ∧
  (_filters (bus st) !! event_type event = None ∨
   _filters (bus st) !! event_type event = Some [] →
   result sh = Ok true ∧ invoked (trace (attempt event s st)) = [sub_id s]).
Proof.
  intros Hc fs sh.
  pose proof (should_handle_passes _ _ _ _ Hc) as Hiff. fold fs sh in Hiff.
  assert (result sh = Ok true ↔ every_predicate_true fs event w) as Hsem.
  { subst sh. rewrite (should_handle_accepting _ _ _ _ Hc). simpl.
    by rewrite all_filters_every_predicate_true. }
  split; [done|]. split.
  { intros gs Hgs. by apply (should_handle_pure_filters _ _ _ _ _ Hc). }
  split; [done|]. intros Hnone.
  assert (fs = []) as Hfs.
  { subst fs. unfold filters_at. by destruct Hnone as [-> | ->]. }
  assert (result sh = Ok true) as Hsh.
  { apply Hsem. by rewrite Hfs. }
  split; [done|]. rewrite attempt_invoked. fold sh. by rewrite Hsh.
Qed.

Lemma handle_call_invoked (tr : list Call) sid r :
  handle_call sid r ∈ tr → sid ∈ invoked tr.
Proof.
  intros H. unfold invoked. apply list_elem_of_omap.
  by exists (handle_call sid r).
Qed.

(** The filter calls of a turn are calls of predicates registered under
    the class of the event itself. *)
Lemma attempt_filter_calls event s st ty k r :
  filter_call ty k r ∈ trace (attempt event s st) →
  ty = event_type event ∧ k < length (filters_at (bus st) (event_type event)).
Proof.
  assert (filter_call ty k r ∈ trace (_should_handle event s st) →
          ty = event_type event
          ∧ k < length (filters_at (bus st) (event_type event))) as Hsh.
  { destruct (should_handle_trace event s st) as (r0 & tl & -> & _ & Htl).
    intros [?|H]%elem_of_cons; [done|].
    apply Htl in H as (i & r' & [= -> -> ->] & Hi). done. }
  destruct (attempt_cases event s st)
    as [(w & H1 & H2)|[(e & w & H1 & H2)|[H1|(e & H1)]]].
  - rewrite (attempt_delivering _ _ _ _ H1 H2). simpl.
    intros [?|H]%elem_of_app; [auto|].
    by apply list_elem_of_singleton in H.
  - rewrite (attempt_failing _ _ _ _ _ H1 H2). simpl.
    intros [?|H]%elem_of_app; [auto|].
    apply elem_of_cons in H as [?|H]; [done|].
    by apply list_elem_of_singleton in H.
  - rewrite (attempt_skipping _ _ _ H1). simpl. auto.
  - rewrite (attempt_blocked _ _ _ _ H1). simpl.
    intros [?|H]%elem_of_app; [auto|].
    by apply list_elem_of_singleton in H.
Qed.

Lemma dispatch_filter_calls event l : ∀ st ty k r,
  filter_call ty k r ∈ trace (dispatch event l st) →
  ty = event_type event ∧ k < length (filters_at (bus st) (event_type event)).
Proof.
  induction l as [|s l IH]; intros st ty k r.
  - by intros ?%elem_of_nil.
  - rewrite dispatch_cons. simpl.
    intros [H|H]%elem_of_app.
    + by eapply attempt_filter_calls.
    + apply IH in H. by rewrite attempt_bus in H.
Qed.

(** C7 (amended). The filters gate by exact class.  During [publish] the
    only predicates called are those registered under [type(event)]
    itself, so a predicate registered under a class is never applied to
    an event of a class derived from it; and in the turn of a candidate,
    [handle] is called only if every predicate registered under
    [type(event)] has been called and has answered [True]. *)
Theorem filters_gate_exact_class_only event st :
  (∀ ty k r, filter_call ty k r ∈ trace (publish event st) →
             ty = event_type event
             ∧ k < length (filters_at (bus st) (event_type event))) ∧
  (∀ s st1 r, handle_call (sub_id s) r ∈ trace (attempt event s st1) →
              ∀ k, k < length (filters_at (bus st1) (event_type event)) →
                   filter_call (event_type event) k (Ok true)
                     ∈ trace (attempt event s st1)).
Proof.
  split.
  - intros ty k r. rewrite publish_dispatch. simpl.
    apply dispatch_filter_calls.
  - intros s st1 r Hh k Hk.
    apply handle_call_invoked in Hh. rewrite attempt_invoked in Hh.
    destruct (result (_should_handle event s st1)) as [[]|e] eqn:Hsh;
      try by apply elem_of_nil in Hh.
    destruct (should_handle_true_accepts _ _ _ Hsh) as [w Hc].
    pose proof (proj1 (should_handle_passes _ _ _ _ Hc) Hsh k Hk) as Hin.
    destruct (attempt_cases event s st1)
      as [(w' & H1 & H2)|[(e & w' & H1 & H2)|[H1|(e & H1)]]].
    + rewrite (attempt_delivering _ _ _ _ H1 H2). simpl.
      apply elem_of_app. by left.
    + rewrite (attempt_failing _ _ _ _ _ H1 H2). simpl.
      apply elem_of_app. by left.
    + congruence.
    + congruence.
Qed.
End Filters.

(** ** What a dispatch reports *)

Section Reporting.
Context {U : Type}.
Implicit Types (st : State U) (event : Event) (s : EventSubscriber U).







End Reporting.

(** ** The statements on the scenarios of the file *)

(** C1. In [main] the logging handler is subscribed under the root class
    [Event] with the comment "Logs all events", and every event published is
    of a class derived from [Event]; yet the candidates of [publish] are the
    subscribers stored under the exact class of the event, so the logging
    handler is never a candidate: during the whole of [main] its
    [can_handle] and its [handle] are not called and nothing is logged. *)
Theorem root_subscriber_misses_derived_events :
  issubclass (event_type login_event) EventClass = true ∧
  map sub_id (registered_at (bus main_state) EventClass) = [0] ∧
  map sub_id (candidates (bus main_state) login_event) = [1] ∧
  evaluated (trace (main startup)) = [1; 2; 2] ∧
  invoked (trace (main startup)) = [1; 2] ∧
  world (final (main startup)) =
    [user_action_line (data login_event); alert_line (data cpu_high_event)].
Proof. vm_compute. by repeat split. Qed.


(** C5, as stated, fails: on a bus without any subscriber, [publish] returns
    [None] and not an empty report. *)
Lemma publish_without_subscribers_returns_no_report :
  (∀ a, issubclass (event_type user_updated_event) a = true →
        registered_at (bus startup) a = []) ∧
  ¬ returns_report (publish user_updated_event startup)
      (candidates (bus startup) user_updated_event).
Proof.
  split; [by intros a _|].
  intros (v & Hv & He). vm_compute in Hv. injection Hv as <-. discriminate He.
Qed.

(** C7, as stated, fails: with a filter registered under the root class and
    a subscriber registered under the root class (and under the class of
    alerts), an alert of priority 2, which the filter rejects, is handed to
    that subscriber without any filter being called. *)
Lemma root_filter_not_applied_to_derived_event :
  issubclass (event_type memory_low_event) EventClass = true ∧
  length (filters_at (bus root_filter_state) EventClass) = 1 ∧
  map sub_id (registered_at (bus root_filter_state) EventClass) = [0] ∧
  (∀ w : Console, priority_filter memory_low_event w = (Ok false, w)) ∧
  trace (publish memory_low_event root_filter_state)
    = [can_handle_call 0 (Ok true); handle_call 0 (Ok ())] ∧
  ¬ ∃ k r, filter_call EventClass k r
             ∈ trace (publish memory_low_event root_filter_state).
Proof.
  assert (trace (publish memory_low_event root_filter_state)
          = [can_handle_call 0 (Ok true); handle_call 0 (Ok ())]) as Ht
    by (by vm_compute).
  split_and!; try (by vm_compute).
  rewrite Ht. intros (k & r & H).
  apply elem_of_cons in H as [H|H]; [discriminate|].
  by apply list_elem_of_singleton in H.
Qed.

(** *** Instances *)

Lemma handler_failure_is_isolated_witness :
  candidates (bus faulty_state) login_event
    = [] ++ RaisingHandler 3 :: [UserActionHandler 1] ∧
  result (publish login_event faulty_state) = Ok VNone ∧
  trace (publish login_event faulty_state) =
    [can_handle_call 3 (Ok true);
     handle_call 3 (Raise {| exn_class := "RuntimeError";
                             exn_msg := "handler failed" |});
     print_call "Error handling event login: handler failed";
     can_handle_call 1 (Ok true); handle_call 1 (Ok ())].
Proof.
  destruct (handler_failure_is_isolated login_event faulty_state
              [] (RaisingHandler 3) [UserActionHandler 1]
              {| exn_class := "RuntimeError"; exn_msg := "handler failed" |} [])
    as (H1 & H2 & _); [by vm_compute ..|].
  split; [by vm_compute|]. split; [exact H1|]. rewrite H2. by vm_compute.
Defined.

Lemma filter_failure_is_isolated_witness :
  candidates (bus alert_state) bad_alert_event
    = [] ++ AlertHandler 2 :: [LoggingHandler 0] ∧
  result (publish bad_alert_event alert_state) = Ok VNone ∧
  invoked (trace (attempt bad_alert_event (AlertHandler 2) alert_state)) = [] ∧
  evaluated (trace (publish bad_alert_event alert_state)) = [2; 0].
Proof.
  destruct (filter_failure_is_isolated bad_alert_event alert_state
              [] (AlertHandler 2) [LoggingHandler 0] 0
              {| exn_class := "TypeError";
                 exn_msg := "'>' not supported between instances of 'str' and 'int'" |})
    as (H1 & H2 & _); [by vm_compute | vm_compute; by repeat constructor |].
  split; [by vm_compute|]. split; [exact H1|]. split; [exact H2|]. by vm_compute.
Defined.

Lemma self_rejection_skips_filters_witness :
  candidates (bus declining_state) cpu_high_event
    = [] ++ DecliningHandler 4 :: [AlertHandler 2] ∧
  trace (attempt cpu_high_event (DecliningHandler 4) declining_state)
    = [can_handle_call 4 (Ok false)] ∧
  invoked (trace (publish cpu_high_event declining_state)) = [2].
Proof.
  destruct (self_rejection_skips_filters cpu_high_event declining_state
              [] (DecliningHandler 4) [AlertHandler 2] [])
    as (H1 & _); [by vm_compute ..|].
  split; [by vm_compute|]. split; [exact H1|]. by vm_compute.
Defined.

Lemma subscribe_appends_in_dispatch_order_witness :
  event_type login_event = UserActionEvent ∧
  evaluated
    (trace (publish login_event
              (run_ops [op_subscribe UserActionEvent (UserActionHandler 1);
                        op_subscribe UserActionEvent (LoggingHandler 0)]
                 main_state)))
  = [1; 1; 0].
Proof.
  split; [reflexivity|].
  destruct (subscribe_appends_in_dispatch_order UserActionEvent
              (UserActionHandler 1) (LoggingHandler 0) login_event main_state
              eq_refl)
    as (_ & _ & _ & _ & H & _).
  exact H.
Defined.

Lemma publish_without_subscribers_witness :
  (∀ a, issubclass (event_type user_updated_event) a = true →
        registered_at (bus declining_state) a = []) ∧
  publish user_updated_event declining_state
    = {| result := Ok VNone; final := declining_state; trace := [] |}.
Proof.
  assert (∀ a, issubclass (event_type user_updated_event) a = true →
               registered_at (bus declining_state) a = []) as H.
  { intros a Ha. simpl in Ha.
    destruct (decide (DataChangeEvent = a)) as [<-|Hne]; [by vm_compute|].
    rewrite (bool_decide_eq_false_2 _ Hne) in Ha. simpl in Ha.
    destruct (decide (EventClass = a)) as [<-|Hne']; [by vm_compute|].
    rewrite (bool_decide_eq_false_2 _ Hne') in Ha. simpl in Ha. discriminate. }
  split; [exact H|]. exact (publish_without_subscribers _ _ H).
Defined.

Lemma filters_pass_iff_all_true_witness :
  can_handle (AlertHandler 2) cpu_high_event (world main_state) = (Ok true, []) ∧
  (result (_should_handle cpu_high_event (AlertHandler 2) main_state) = Ok true ↔
   every_predicate_true (filters_at (bus main_state) SystemAlertEvent)
     cpu_high_event []) ∧
  result (_should_handle memory_low_event (AlertHandler 2) main_state)
  = Ok (forallb (λ g, g memory_low_event) [λ _, false]).
Proof.
  split; [reflexivity|]. split.
  - exact (proj1 (filters_pass_iff_all_true cpu_high_event (AlertHandler 2)
                    main_state [] eq_refl)).
  - apply (proj1 (proj2 (filters_pass_iff_all_true memory_low_event
                           (AlertHandler 2) main_state [] eq_refl))).
    vm_compute. by repeat constructor.
Defined.

(** ** Further properties of the registrations *)

Section Registrations.
Context {U : Type}.
Implicit Types (st : State U) (event : Event) (s : EventSubscriber U).
Implicit Types (f : Callback U bool) (c : EventType).

(** X1. [add_filter] stores under the class the former list of predicates
    (the empty one when the class had none) with the predicate appended, so
    two successive calls leave the predicates in the order of the calls; it
    leaves the other classes and all the subscribers alone, calls nothing,
    changes nothing outside, and evaluates to [None]. *)
Theorem add_filter_appends c f1 f2 st :
  let old := filters_at (bus st) c in
  let st1 := final (add_filter c f1 st) in
  let st2 := final (add_filter c f2 st1) in
  result (add_filter c f1 st) = Ok VNone ∧
  trace (add_filter c f1 st) = [] ∧
  world st1 = world st ∧
  _subscribers (bus st1) = _subscribers (bus st) ∧
  _filters (bus st1) !! c = Some (old ++ [f1]) ∧
  (∀ c', c' ≠ c → _filters (bus st1) !! c' = _filters (bus st) !! c') ∧
  filters_at (bus st2) c = old ++ [f1; f2].
Proof.
  intros old st1 st2. subst st2 st1. rewrite !add_filter_eq. simpl.
  split_and!; try done.
  - apply lookup_insert_eq.
  - intros c' Hc'. by apply lookup_insert_ne.
  - unfold filters_at at 1. simpl. rewrite lookup_insert_eq. simpl.
    unfold filters_at at 1. simpl. rewrite lookup_insert_eq. simpl.
    by rewrite <- app_assoc.
Qed.

(** X2. [subscribe] never raises (the lookup that follows the creation of a
    missing list cannot fail), calls nothing, and touches neither the
    filters nor the outside world; as the two dictionaries are separate,
    registering a subscriber and registering a filter, under any classes,
    give the same bus in either order. *)
Theorem subscribe_and_add_filter_are_independent c s c' f st :
  result (subscribe c s st) = Ok VNone ∧
  trace (subscribe c s st) = [] ∧
  world (final (subscribe c s st)) = world st ∧
  _filters (bus (final (subscribe c s st))) = _filters (bus st) ∧
  final (add_filter c' f (final (subscribe c s st)))
  = final (subscribe c s (final (add_filter c' f st))).
Proof.
  rewrite !add_filter_eq, !subscribe_eq. simpl.
  by unfold filters_at, registered_at.
Qed.

(** X3. Subscriptions under two different classes commute: either order of
    the two calls leaves the same bus. *)
Theorem subscriptions_at_distinct_classes_commute c1 s1 c2 s2 st :
  c1 ≠ c2 →
  final (subscribe c2 s2 (final (subscribe c1 s1 st)))
  = final (subscribe c1 s1 (final (subscribe c2 s2 st))).
Proof.
  intros Hne. rewrite !subscribe_eq. simpl.
  unfold registered_at. simpl.
  rewrite !lookup_insert_ne by done.
  by rewrite (insert_insert_ne _ c2 c1) by done.
Qed.

(** X4. On a bus built from [EventBus()] by calls of [subscribe],
    [add_filter] and [publish], no class is ever stored with an empty list:
    a class is a key of [_subscribers] exactly when it has a subscriber, so
    the membership test at the head of [publish] is the test that nobody is
    registered under the class of the event. *)
Theorem registry_lists_are_never_empty (ops : list (Op U)) (w : U) :
  let st := run_ops ops {| bus := EventBus_init; world := w |} in
  (∀ c, is_Some (_subscribers (bus st) !! c) ↔ registered_at (bus st) c ≠ []) ∧
  (∀ c, is_Some (_filters (bus st) !! c) ↔ filters_at (bus st) c ≠ []).
Proof.
  intros st.
  assert ((∀ c, _subscribers (bus st) !! c ≠ Some []) ∧
          (∀ c, _filters (bus st) !! c ≠ Some [])) as [Hs Hf].
  { subst st.
    assert ((∀ c, _subscribers (bus {| bus := @EventBus_init U; world := w |}) !! c
                  ≠ Some []) ∧
            (∀ c, _filters (bus {| bus := @EventBus_init U; world := w |}) !! c
                  ≠ Some [])) as H0.
    { split; intros c; simpl; by rewrite lookup_empty. }
    revert H0. generalize ({| bus := @EventBus_init U; world := w |}).
    induction ops as [|op ops IH]; intros st [Hs Hf]; [done|].
    simpl. apply IH. destruct op as [c s|c f|event]; unfold run_op.
    - rewrite subscribe_eq. simpl. split; [|done]. intros c'.
      destruct (decide (c = c')) as [<-|Hne].
      + rewrite lookup_insert_eq. intros [= H]. by destruct (registered_at _ _).
      + by rewrite lookup_insert_ne.
    - rewrite add_filter_eq. simpl. split; [done|]. intros c'.
      destruct (decide (c = c')) as [<-|Hne].
      + rewrite lookup_insert_eq. intros [= H]. by destruct (filters_at _ _).
      + by rewrite lookup_insert_ne.
    - rewrite publish_dispatch. simpl. by rewrite dispatch_bus. }
  split; intros c.
  - unfold registered_at. specialize (Hs c).
    destruct (_subscribers (bus st) !! c) as [[|]|]; simpl.
    + done.
    + split; [done | by eexists].
    + split; [by intros [] | done].
  - unfold filters_at. specialize (Hf c).
    destruct (_filters (bus st) !! c) as [[|]|]; simpl.
    + done.
    + split; [done | by eexists].
    + split; [by intros [] | done].
Qed.

(** X5. There is no way to unsubscribe or to drop a filter: whatever calls
    of [subscribe], [add_filter] and [publish] follow, the subscribers and
    the predicates registered under a class stay registered, in front of
    any later ones and in their order. *)
Theorem registrations_only_grow (ops : list (Op U)) st c :
  registered_at (bus st) c `prefix_of` registered_at (bus (run_ops ops st)) c ∧
  filters_at (bus st) c `prefix_of` filters_at (bus (run_ops ops st)) c.
Proof.
  revert st. induction ops as [|op ops IH]; intros st; [done|].
  simpl. destruct (IH (final (run_op op st))) as [IHs IHf].
  assert (registered_at (bus st) c
            `prefix_of` registered_at (bus (final (run_op op st))) c ∧
          filters_at (bus st) c
            `prefix_of` filters_at (bus (final (run_op op st))) c) as [Hs Hf].
  { destruct op as [c0 s|c0 f|event]; unfold run_op.
    - rewrite subscribe_eq. simpl. split; [|done].
      unfold registered_at at 2. simpl.
      destruct (decide (c0 = c)) as [->|Hne].
      + rewrite lookup_insert_eq. simpl. by apply prefix_app_r.
      + by rewrite lookup_insert_ne.
    - rewrite add_filter_eq. simpl. split; [done|].
      unfold filters_at at 2. simpl.
      destruct (decide (c0 = c)) as [->|Hne].
      + rewrite lookup_insert_eq. simpl. by apply prefix_app_r.
      + by rewrite lookup_insert_ne.
    - rewrite publish_dispatch. simpl. by rewrite dispatch_bus. }
  split; [by etrans | by etrans].
Qed.
End Registrations.

(** ** Further properties of the dispatch *)

Section Dispatching.
Context {U : Type}.
Implicit Types (st : State U) (event : Event) (s : EventSubscriber U).
Implicit Types (pre post l : list (EventSubscriber U)).

Lemma accepted_sublist event l : ∀ st,
  accepted event l st `sublist_of` map sub_id l.
Proof.
  induction l as [|s l IH]; intros st; [done|].
  simpl. destruct (result (_should_handle event s st)) as [[]|e]; simpl.
  - by apply sublist_skip.
  - by apply sublist_cons.
  - by apply sublist_cons.
Qed.

(** The walk over the list as it was stored at the call: one turn per
    registration under the class of the event itself, in the order of
    registration, and at most one call of [handle] per turn. *)
Lemma publish_attempts_candidates event st :
  result (publish event st) = Ok VNone ∧
  evaluated (trace (publish event st))
  = map sub_id (registered_at (bus st) (event_type event)) ∧
  invoked (trace (publish event st))
    `sublist_of` evaluated (trace (publish event st)).
Proof.
  rewrite publish_dispatch. simpl.
  rewrite dispatch_evaluated, dispatch_invoked.
  split_and!; [done | done | apply accepted_sublist].
Qed.

(** X7. When the [can_handle] of a candidate raises, the exception is caught
    like any other: the turn consists of that call and of the printed error
    line, no filter is evaluated, [handle] is not called, [publish]
    evaluates to [None] and the loop goes on with the later candidates. *)
Theorem can_handle_failure_is_isolated event st pre s post e w :
  candidates (bus st) event = pre ++ s :: post →
  let st1 := final (dispatch event pre st) in
  can_handle s event (world st1) = (Raise e, w) →
  let st2 := {| bus := bus st; world := w |} in
  trace (attempt event s st1)
  = [can_handle_call (sub_id s) (Raise e); print_call (error_line event e)] ∧
  result (publish event st) = Ok VNone ∧
  trace (publish event st) =
    trace (dispatch event pre st)
    ++ [can_handle_call (sub_id s) (Raise e); print_call (error_line event e)]
    ++ trace (dispatch event post st2) ∧
  evaluated (trace (dispatch event post st2)) = map sub_id post ∧
  invoked (trace (dispatch event post st2)) = accepted event post st2.
Proof.
  intros Hc st1 Hch st2.
  pose proof (should_handle_raising _ _ _ _ _ Hch) as Hsh.
  assert (attempt event s st1 =
          {| result := Ok (); final := st2;
             trace := [can_handle_call (sub_id s) (Raise e);
                       print_call (error_line event e)] |}) as Hturn.
  { rewrite (attempt_blocked _ _ _ e); rewrite Hsh; [|done]. simpl. subst st2.
    by replace (bus st1) with (bus st) by (symmetry; apply dispatch_bus). }
  rewrite (publish_split _ _ _ _ _ Hc). simpl. fold st1. rewrite Hturn. simpl.
  split_and!; [done | done | done | apply dispatch_evaluated
              | apply dispatch_invoked].
Qed.

Lemma printed_app (t1 t2 : list Call) :
  printed (t1 ++ t2) = printed t1 ++ printed t2.
Proof. apply omap_app. Qed.

Lemma should_handle_printed event s st :
  printed (trace (_should_handle event s st)) = [].
Proof.
  destruct (should_handle_trace event s st) as (r & tl & -> & _ & Htl).
  simpl. induction tl as [|c tl IH]; [done|].
  destruct (Htl c) as (i & r' & -> & _); [by left|].
  simpl. apply IH. intros c' Hc'. apply Htl. by right.
Qed.

Lemma attempt_printed event s st :
  printed (trace (attempt event s st))
  = option_list (failure_line event (outcome event s st)).
Proof.
  pose proof (should_handle_printed event s st) as Hp. unfold outcome.
  destruct (attempt_cases event s st)
    as [(w & H1 & H2)|[(e & w & H1 & H2)|[H1|(e & H1)]]].
  - rewrite (attempt_delivering _ _ _ _ H1 H2), H1, H2. simpl.
    by rewrite printed_app, Hp.
  - rewrite (attempt_failing _ _ _ _ _ H1 H2), H1, H2. simpl.
    by rewrite printed_app, Hp.
  - rewrite (attempt_skipping _ _ _ H1), H1. simpl. rewrite Hp.
    by destruct (fst (can_handle s event (world st))) as [[]|].
  - rewrite (attempt_blocked _ _ _ _ H1), H1. simpl.
    by rewrite printed_app, Hp.
Qed.

(** X8. The bus prints exactly one line per failed turn and nothing else:
    the lines printed during [publish] are, in order, the lines
    "Error handling event <name>: <str(e)>" of the candidates whose turn
    ended with a caught exception [e]. *)
Theorem publish_prints_one_line_per_failure event st :
  printed (trace (publish event st))
  = omap (failure_line event)
      (outcomes event (candidates (bus st) event) st).
Proof.
  rewrite publish_dispatch. simpl.
  generalize (candidates (bus st) event). intros l. revert st.
  induction l as [|s l IH]; intros st; [done|].
  rewrite dispatch_cons. simpl.
  rewrite printed_app, IH, attempt_printed.
  by destruct (failure_line event (outcome event s st)).
Qed.
End Dispatching.

(** ** What a dispatch depends on *)

Section Locality.
Context {U : Type}.
Implicit Types (st : State U) (event : Event) (s : EventSubscriber U).
Implicit Types (l : list (EventSubscriber U)).

(** The evaluation of a list of predicates looks at the outside world
    only. *)
Lemma all_filters_observable ty fs event : ∀ k st st',
  world st = world st' →
  observable (all_filters ty k fs event st)
  = observable (all_filters ty k fs event st').
Proof.
  induction fs as [|f fs IH]; intros k st st' Hw; unfold observable.
  - simpl. by rewrite Hw.
  - simpl. unfold bind, call. rewrite Hw.
    destruct (f event (world st')) as [[[]|e] w]; simpl; try done.
    specialize (IH (S k) {| bus := bus st; world := w |}
                  {| bus := bus st'; world := w |} eq_refl).
    unfold observable in IH. by injection IH as -> -> ->.
Qed.

(** A turn looks at the outside world and at the predicates stored under
    the class of the event, and at nothing else of the bus. *)
Lemma attempt_observable event s st st' :
  world st = world st' →
  filters_at (bus st) (event_type event) = filters_at (bus st') (event_type event) →
  observable (attempt event s st) = observable (attempt event s st').
Proof.
  intros Hw Hf.
  assert (observable (_should_handle event s st)
          = observable (_should_handle event s st')) as Hsh.
  { unfold observable.
    destruct (can_handle s event (world st)) as [[[]|e] w] eqn:Hc.
    - rewrite (should_handle_accepting _ _ st _ Hc).
      rewrite Hw in Hc. rewrite (should_handle_accepting _ _ st' _ Hc). simpl.
      rewrite Hf.
      pose proof (all_filters_observable (event_type event)
                    (filters_at (bus st') (event_type event)) event 0
                    {| bus := bus st; world := w |}
                    {| bus := bus st'; world := w |} eq_refl) as H.
      unfold observable in H. by injection H as -> -> ->.
    - rewrite (should_handle_rejecting _ _ st _ Hc).
      rewrite Hw in Hc. by rewrite (should_handle_rejecting _ _ st' _ Hc).
    - rewrite (should_handle_raising _ _ st _ _ Hc).
      rewrite Hw in Hc. by rewrite (should_handle_raising _ _ st' _ _ Hc). }
  unfold observable in *. injection Hsh as Hr Ht Hfw.
  destruct (attempt_cases event s st)
    as [(w & H1 & H2)|[(e & w & H1 & H2)|[H1|(e & H1)]]].
  - rewrite (attempt_delivering _ _ _ _ H1 H2).
    rewrite Hr in H1. rewrite Hfw in H2.
    rewrite (attempt_delivering _ _ _ _ H1 H2). simpl. by rewrite Ht.
  - rewrite (attempt_failing _ _ _ _ _ H1 H2).
    rewrite Hr in H1. rewrite Hfw in H2.
    rewrite (attempt_failing _ _ _ _ _ H1 H2). simpl. by rewrite Ht.
  - rewrite (attempt_skipping _ _ _ H1). rewrite Hr in H1.
    rewrite (attempt_skipping _ _ _ H1). simpl. by rewrite Ht, Hfw.
  - rewrite (attempt_blocked _ _ _ _ H1). rewrite Hr in H1.
    rewrite (attempt_blocked _ _ _ _ H1). simpl. by rewrite Ht, Hfw.
Qed.

Lemma dispatch_observable event l : ∀ st st',
  world st = world st' →
  filters_at (bus st) (event_type event) = filters_at (bus st') (event_type event) →
  observable (dispatch event l st) = observable (dispatch event l st').
Proof.
  induction l as [|s l IH]; intros st st' Hw Hf.
  - unfold observable. simpl. by rewrite Hw.
  - rewrite !dispatch_cons.
    pose proof (attempt_observable event s st st' Hw Hf) as Ha.
    unfold observable in Ha. injection Ha as _ Ht Haw.
    specialize (IH (final (attempt event s st)) (final (attempt event s st')) Haw).
    rewrite !attempt_bus in IH. specialize (IH Hf).
    unfold observable in *. simpl. injection IH as _ -> ->. by rewrite Ht.
Qed.

(** X9. Registrations are local to their class: subscribing or adding a
    filter under a class changes nothing to the publication of an event of
    any other class, derived classes included: same result, same calls in
    the same order, same effect on the outside world. *)
Theorem registration_is_local_to_its_class c s (f : Callback U bool) event st :
  event_type event ≠ c →
  observable (publish event (final (subscribe c s st)))
  = observable (publish event st) ∧
  observable (publish event (final (add_filter c f st)))
  = observable (publish event st).
Proof.
  intros Hne.
  assert (∀ st', world st' = world st →
            registered_at (bus st') (event_type event)
            = registered_at (bus st) (event_type event) →
            filters_at (bus st') (event_type event)
            = filters_at (bus st) (event_type event) →
            observable (publish event st') = observable (publish event st)) as H.
  { intros st' Hw Hs Hf.
    pose proof (dispatch_observable event (candidates (bus st) event) st' st Hw Hf)
      as Hd.
    unfold observable in *. rewrite !publish_dispatch. simpl.
    replace (candidates (bus st') event) with (candidates (bus st) event)
      by (unfold candidates; by rewrite Hs).
    by injection Hd as _ -> ->. }
  split; apply H.
  - by rewrite subscribe_eq.
  - rewrite subscribe_eq. unfold registered_at. simpl.
    by rewrite lookup_insert_ne.
  - by rewrite subscribe_eq.
  - by rewrite add_filter_eq.
  - by rewrite add_filter_eq.
  - rewrite add_filter_eq. unfold filters_at. simpl.
    by rewrite lookup_insert_ne.
Qed.
End Locality.

(** ** Further properties of the filters *)

Section Filter_order.
Context {U : Type}.
Implicit Types (st : State U) (event : Event) (s : EventSubscriber U).
Implicit Types (fs pre post : list (Callback U bool)).

Lemma count_calls_app (p : Call → bool) (t1 t2 : list Call) :
  count_calls p (t1 ++ t2) = count_calls p t1 + count_calls p t2.
Proof. unfold count_calls. by rewrite List.filter_app, length_app. Qed.

Lemma count_calls_none (p : Call → bool) (tr : list Call) :
  (∀ c, c ∈ tr → p c = false) → count_calls p tr = 0.
Proof.
  unfold count_calls. induction tr as [|c tr IH]; intros H; [done|].
  simpl. rewrite (H c) by by left. apply IH. intros c' Hc'. apply H. by right.
Qed.

(** A list of predicates whose first part answers [True] throughout goes on
    with the rest, numbered after the first part. *)
Lemma all_filters_app ty pre post event : ∀ k st,
  result (all_filters ty k pre event st) = Ok true →
  all_filters ty k (pre ++ post) event st =
    let run := all_filters ty k pre event st in
    let rest := all_filters ty (k + length pre) post event (final run) in
    {| result := result rest; final := final rest;
       trace := trace run ++ trace rest |}.
Proof.
  induction pre as [|f pre IH]; intros k st.
  - intros _. simpl. rewrite Nat.add_0_r.
    by destruct (all_filters ty k post event st).
  - simpl. unfold bind. destruct (f event (world st)) as [r w] eqn:Ef.
    rewrite (call_eq _ _ _ _ _ _ Ef). simpl.
    destruct r as [[]|e]; simpl; try done.
    intros Hr. rewrite (IH _ _ Hr). simpl.
    by replace (k + S (length pre)) with (S k + length pre) by lia.
Qed.

(** X10. The predicates of a class are applied in the order of their
    registration and the evaluation stops at the first one that does not
    answer [True]: when the predicates in front of [f] answer [True] and [f]
    answers [False] or raises, that is the answer of [_should_handle], [f]
    is the last predicate called, and no predicate registered after [f] is
    called for this candidate. *)
Theorem filters_stop_at_first_refusal event s st w pre f post r w' :
  can_handle s event (world st) = (Ok true, w) →
  filters_at (bus st) (event_type event) = pre ++ f :: post →
  let run := all_filters (event_type event) 0 pre event
               {| bus := bus st; world := w |} in
  result run = Ok true →
  f event (world (final run)) = (r, w') →
  r ≠ Ok true →
  result (_should_handle event s st) = r ∧
  trace (_should_handle event s st)
  = can_handle_call (sub_id s) (Ok true)
    :: trace run ++ [filter_call (event_type event) (length pre) r] ∧
  world (final (_should_handle event s st)) = w' ∧
  ∀ k r', length pre < k →
          filter_call (event_type event) k r' ∉ trace (_should_handle event s st).
Proof.
  intros Hc Hfs run Hrun Hf Hr.
  rewrite (should_handle_accepting _ _ _ _ Hc). simpl. rewrite Hfs.
  rewrite (all_filters_app _ _ _ _ _ _ Hrun). fold run. simpl.
  unfold bind. rewrite (call_eq _ _ _ _ _ _ Hf). simpl.
  destruct r as [[]|e]; [done| |]; simpl.
  - split_and!; try done.
    intros k r' Hk [?|Hin]%elem_of_cons; [done|].
    apply elem_of_app in Hin as [Hin|Hin].
    + apply all_filters_calls in Hin as (i & r'' & [= -> ->] & Hi). simpl in Hi. lia.
    + apply list_elem_of_singleton in Hin. injection Hin as ->. lia.
  - split_and!; try done.
    intros k r' Hk [?|Hin]%elem_of_cons; [done|].
    apply elem_of_app in Hin as [Hin|Hin].
    + apply all_filters_calls in Hin as (i & r'' & [= -> ->] & Hi). simpl in Hi. lia.
    + apply list_elem_of_singleton in Hin. injection Hin as ->. lia.
Qed.

Lemma all_filters_first_call ty fs event : ∀ k st,
  count_calls (is_filter k) (trace (all_filters ty k fs event st))
  = if fs is [] then 0 else 1.
Proof.
  destruct fs as [|f fs]; intros k st; [done|].
  simpl. unfold bind. destruct (f event (world st)) as [r w] eqn:Ef.
  rewrite (call_eq _ _ _ _ _ _ Ef). simpl.
  assert (count_calls (is_filter k) [filter_call ty k r] = 1) as H1.
  { unfold count_calls. simpl. by rewrite bool_decide_eq_true_2. }
  destruct r as [[]|e]; simpl; try done.
  change (filter_call ty k (Ok true) :: ?t)
    with ([filter_call ty k (Ok true)] ++ t).
  rewrite count_calls_app, H1, count_calls_none; [done|].
  intros c (i & r' & -> & Hi)%all_filters_calls. simpl.
  apply bool_decide_eq_false_2. lia.
Qed.

Lemma all_filters_no_accept ty fs event k st :
  count_calls is_accept (trace (all_filters ty k fs event st)) = 0.
Proof.
  apply count_calls_none. by intros c (i & r' & -> & _)%all_filters_calls.
Qed.

Lemma attempt_filter_count event s st :
  filters_at (bus st) (event_type event) ≠ [] →
  count_calls (is_filter 0) (trace (attempt event s st))
  = count_calls is_accept (trace (attempt event s st)).
Proof.
  intros Hfs.
  assert (count_calls (is_filter 0) (trace (_should_handle event s st))
          = count_calls is_accept (trace (_should_handle event s st))) as Hsh.
  { destruct (can_handle s event (world st)) as [[[]|e] w] eqn:Hc.
    - rewrite (should_handle_accepting _ _ _ _ Hc). simpl.
      change (can_handle_call (sub_id s) (Ok true) :: ?t)
        with ([can_handle_call (sub_id s) (Ok true)] ++ t).
      rewrite !count_calls_app, all_filters_first_call, all_filters_no_accept.
      by destruct (filters_at (bus st) (event_type event)).
    - by rewrite (should_handle_rejecting _ _ _ _ Hc).
    - by rewrite (should_handle_raising _ _ _ _ _ Hc). }
  destruct (attempt_cases event s st)
    as [(w & H1 & H2)|[(e & w & H1 & H2)|[H1|(e & H1)]]].
  - rewrite (attempt_delivering _ _ _ _ H1 H2). simpl.
    by rewrite !count_calls_app, Hsh.
  - rewrite (attempt_failing _ _ _ _ _ H1 H2). simpl.
    by rewrite !count_calls_app, Hsh.
  - by rewrite (attempt_skipping _ _ _ H1).
  - rewrite (attempt_blocked _ _ _ _ H1). simpl.
    by rewrite !count_calls_app, Hsh.
Qed.

(** X11. The filters are evaluated anew for every candidate that accepts the
    event, not once per publication: when the class of the event has a
    filter, the first predicate is called during [publish] exactly as many
    times as [can_handle] answered [True]. *)
Theorem filters_are_rerun_for_each_accepting_candidate event st :
  filters_at (bus st) (event_type event) ≠ [] →
  count_calls (is_filter 0) (trace (publish event st))
  = count_calls is_accept (trace (publish event st)).
Proof.
  intros Hfs. rewrite publish_dispatch. simpl.
  generalize (candidates (bus st) event). intros l. revert st Hfs.
  induction l as [|s l IH]; intros st Hfs; [done|].
  rewrite dispatch_cons. simpl. rewrite !count_calls_app.
  rewrite (attempt_filter_count _ _ _ Hfs). f_equal.
  apply IH. by rewrite attempt_bus.
Qed.
End Filter_order.

(** ** The publisher and the bus of [main] *)

Lemma publish_result {U} (event : Event) (st : State U) :
  result (publish event st) = Ok VNone.
Proof. by rewrite publish_dispatch. Qed.

Lemma publish_bus {U} (event : Event) (st : State U) :
  bus (final (publish event st)) = bus st.
Proof. rewrite publish_dispatch. simpl. apply dispatch_bus. Qed.

Lemma main_subscribers :
  _subscribers (bus main_state)
  = <[SystemAlertEvent := [AlertHandler 2]]>
      (<[UserActionEvent := [UserActionHandler 1]]>
         (<[EventClass := [LoggingHandler 0]]> ∅)).
Proof. reflexivity. Qed.

Lemma main_registered :
  registered_at (bus main_state) EventClass = [LoggingHandler 0] ∧
  registered_at (bus main_state) UserActionEvent = [UserActionHandler 1] ∧
  registered_at (bus main_state) SystemAlertEvent = [AlertHandler 2].
Proof. vm_compute. by repeat split. Qed.

Lemma main_filters_at :
  filters_at (bus main_state) EventClass = [] ∧
  filters_at (bus main_state) UserActionEvent = [] ∧
  filters_at (bus main_state) SystemAlertEvent = [priority_filter].
Proof. vm_compute. by repeat split. Qed.

(** The filter of [main] answers by the priority when there is one, and
    raises otherwise; it changes nothing outside. *)
Lemma priority_filter_answer {U} (ev : Event) (w : U) :
  priority_filter ev w
  = (match alert_priority (data ev) with
     | Some z => Ok (bool_decide (3 < z)%Z)
     | None => Raise (priority_failure (data ev))
     end, w).
Proof.
  unfold priority_filter, alert_priority, priority_failure.
  destruct (data ev) as [|z|str|items|items]; try reflexivity.
  by destruct (dict_get items "priority" (VInt 0)).
Qed.

Lemma all_filters_single {U} ty k (f : Callback U bool) ev (st : State U) r w :
  f ev (world st) = (r, w) →
  all_filters ty k [f] ev st
  = {| result := r; final := {| bus := bus st; world := w |};
       trace := [filter_call ty k r] |}.
Proof.
  intros Hf. simpl. unfold bind. rewrite (call_eq _ _ _ _ _ _ Hf). simpl.
  by destruct r as [[]|e].
Qed.

Lemma publish_single {U} ev (st : State U) s :
  candidates (bus st) ev = [s] →
  publish ev st = {| result := Ok VNone; final := final (attempt ev s st);
                     trace := trace (attempt ev s st) |}.
Proof.
  intros Hc. rewrite publish_dispatch, Hc, dispatch_cons, dispatch_nil. simpl.
  by rewrite app_nil_r.
Qed.

(** A turn of an accepting subscriber whose [handle] returns, for an event
    of a class without filters. *)
Lemma attempt_unfiltered {U} ev (st : State U) s w w' :
  filters_at (bus st) (event_type ev) = [] →
  can_handle s ev (world st) = (Ok true, w) →
  handle s ev w = (Ok (), w') →
  attempt ev s st
  = {| result := Ok (); final := {| bus := bus st; world := w' |};
       trace := [can_handle_call (sub_id s) (Ok true);
                 handle_call (sub_id s) (Ok ())] |}.
Proof.
  intros Hfs Hc Hh.
  pose proof (should_handle_accepting _ _ _ _ Hc) as Hsh. cbv zeta in Hsh.
  rewrite Hfs in Hsh. simpl in Hsh.
  assert (result (_should_handle ev s st) = Ok true) as H1 by (by rewrite Hsh).
  assert (handle s ev (world (final (_should_handle ev s st))) = (Ok (), w'))
    as H2 by (by rewrite Hsh).
  by rewrite (attempt_delivering _ _ _ _ H1 H2), Hsh.
Qed.

(** The cases of the bus of [main], for a state whose bus is that one. *)

Lemma main_bus_plain_event (ev : Event) (st : State Console) :
  bus st = bus main_state → event_type ev = EventClass →
  trace (publish ev st) = [can_handle_call 0 (Ok true); handle_call 0 (Ok ())]
  ∧ world (final (publish ev st)) = world st ++ [log_line (name ev) (data ev)].
Proof.
  intros Hbus Hty.
  destruct main_registered as (Hr & _). destruct main_filters_at as (Hf0 & _).
  assert (candidates (bus st) ev = [LoggingHandler 0]) as Hc
    by (unfold candidates; rewrite Hbus, Hty; exact Hr).
  assert (filters_at (bus st) (event_type ev) = []) as Hf
    by (rewrite Hbus, Hty; exact Hf0).
  rewrite (publish_single _ _ _ Hc).
  rewrite (attempt_unfiltered ev st (LoggingHandler 0) (world st)
             (world st ++ [log_line (name ev) (data ev)]) Hf eq_refl eq_refl).
  split; reflexivity.
Qed.

Lemma main_bus_user_action (ev : Event) (st : State Console) :
  bus st = bus main_state → event_type ev = UserActionEvent →
  trace (publish ev st) = [can_handle_call 1 (Ok true); handle_call 1 (Ok ())]
  ∧ world (final (publish ev st)) = world st ++ [user_action_line (data ev)].
Proof.
  intros Hbus Hty.
  destruct main_registered as (_ & Hr & _).
  destruct main_filters_at as (_ & Hf1 & _).
  assert (candidates (bus st) ev = [UserActionHandler 1]) as Hc
    by (unfold candidates; rewrite Hbus, Hty; exact Hr).
  assert (filters_at (bus st) (event_type ev) = []) as Hf
    by (rewrite Hbus, Hty; exact Hf1).
  assert (can_handle (UserActionHandler 1) ev (world st) = (Ok true, world st))
    as Hch.
  { cbn [can_handle UserActionHandler]. unfold isinstance.
    by rewrite Hty, issubclass_refl. }
  rewrite (publish_single _ _ _ Hc).
  rewrite (attempt_unfiltered ev st (UserActionHandler 1) (world st)
             (world st ++ [user_action_line (data ev)]) Hf Hch eq_refl).
  split; reflexivity.
Qed.

Lemma main_bus_alert (ev : Event) (st : State Console) :
  bus st = bus main_state → event_type ev = SystemAlertEvent →
  match alert_priority (data ev) with
  | Some z =>
      if bool_decide (3 < z)%Z
      then invoked (trace (publish ev st)) = [2]
           ∧ printed (trace (publish ev st)) = []
           ∧ world (final (publish ev st)) = world st ++ [alert_line (data ev)]
      else invoked (trace (publish ev st)) = []
           ∧ printed (trace (publish ev st)) = []
           ∧ world (final (publish ev st)) = world st
  | None => invoked (trace (publish ev st)) = []
            ∧ printed (trace (publish ev st))
              = [error_line ev (priority_failure (data ev))]
            ∧ world (final (publish ev st)) = world st
  end.
Proof.
  intros Hbus Hty.
  destruct main_registered as (_ & _ & Hr).
  destruct main_filters_at as (_ & _ & Hf2).
  assert (candidates (bus st) ev = [AlertHandler 2]) as Hcands
    by (unfold candidates; rewrite Hbus, Hty; exact Hr).
  assert (filters_at (bus st) (event_type ev) = [priority_filter]) as Hfs
    by (rewrite Hbus, Hty; exact Hf2).
  assert (can_handle (AlertHandler 2) ev (world st) = (Ok true, world st)) as Hc.
  { cbn [can_handle AlertHandler]. unfold isinstance.
    by rewrite Hty, issubclass_refl. }
  rewrite (publish_single _ _ _ Hcands). cbn [result final trace].
  pose proof (should_handle_accepting _ _ _ _ Hc) as Hsh. cbv zeta in Hsh.
  pose proof (priority_filter_answer ev (world st)) as Hpf.
  rewrite Hfs, (all_filters_single _ _ _ _
                  {| bus := bus st; world := world st |} _ _ Hpf) in Hsh.
  cbn [result final trace bus world] in Hsh.
  destruct (alert_priority (data ev)) as [z|];
    [destruct (bool_decide (3 < z)%Z)|].
  - assert (result (_should_handle ev (AlertHandler 2) st) = Ok true) as H1
      by (rewrite Hsh; reflexivity).
    assert (handle (AlertHandler 2) ev
              (world (final (_should_handle ev (AlertHandler 2) st)))
            = (Ok (), world st ++ [alert_line (data ev)])) as H2
      by (rewrite Hsh; reflexivity).
    rewrite (attempt_delivering _ _ _ _ H1 H2), Hsh.
    split_and!; reflexivity.
  - assert (result (_should_handle ev (AlertHandler 2) st) = Ok false) as H1
      by (rewrite Hsh; reflexivity).
    rewrite (attempt_skipping _ _ _ H1), Hsh.
    split_and!; reflexivity.
  - assert (result (_should_handle ev (AlertHandler 2) st)
            = Raise (priority_failure (data ev))) as H1
      by (rewrite Hsh; reflexivity).
    rewrite (attempt_blocked _ _ _ _ H1), Hsh. cbn [result final trace].
    split_and!; reflexivity.
Qed.

Lemma main_bus_other_class (ev : Event) (st : State Console) :
  bus st = bus main_state →
  event_type ev ≠ EventClass → event_type ev ≠ UserActionEvent →
  event_type ev ≠ SystemAlertEvent →
  trace (publish ev st) = [] ∧ world (final (publish ev st)) = world st.
Proof.
  intros Hbus H1 H2 H3.
  assert (candidates (bus st) ev = []) as Hc.
  { unfold candidates, registered_at. rewrite Hbus, main_subscribers.
    rewrite lookup_insert_ne by (intros Heq; by apply H3).
    rewrite lookup_insert_ne by (intros Heq; by apply H2).
    rewrite lookup_insert_ne by (intros Heq; by apply H1).
    by rewrite lookup_empty. }
  rewrite publish_dispatch, Hc. split; reflexivity.
Qed.

(** X13. What the bus configured by [main] does with an event whose data
    lies in the fragment of values modelled (None, integers, strings, lists
    and dictionaries), whatever is already on the console.  A plain [Event]
    is logged by the logging handler and by it alone; a [UserActionEvent]
    goes to the user action handler alone (it is not logged); a
    [SystemAlertEvent] goes to the alert handler when its data is a
    dictionary whose priority is an integer above 3, is dropped silently
    when the priority is an integer up to 3 or is missing, and is dropped
    with the one printed line of the exception raised when the data is not
    a dictionary (as the default [None]) or the priority is [None], a
    string, a list or a dictionary; an event of any other class reaches
    nobody. *)
Theorem main_bus_delivery (ev : Event) (w : Console) :
  let r := publish ev {| bus := bus main_state; world := w |} in
  result r = Ok VNone ∧
  (event_type ev = EventClass →
   trace r = [can_handle_call 0 (Ok true); handle_call 0 (Ok ())]
   ∧ world (final r) = w ++ [log_line (name ev) (data ev)]) ∧
  (event_type ev = UserActionEvent →
   trace r = [can_handle_call 1 (Ok true); handle_call 1 (Ok ())]
   ∧ world (final r) = w ++ [user_action_line (data ev)]) ∧
  (event_type ev = SystemAlertEvent →
   match alert_priority (data ev) with
   | Some z =>
       if bool_decide (3 < z)%Z
       then invoked (trace r) = [2] ∧ printed (trace r) = []
            ∧ world (final r) = w ++ [alert_line (data ev)]
       else invoked (trace r) = [] ∧ printed (trace r) = []
            ∧ world (final r) = w
   | None => invoked (trace r) = []
             ∧ printed (trace r) = [error_line ev (priority_failure (data ev))]
             ∧ world (final r) = w
   end) ∧
  (event_type ev ≠ EventClass → event_type ev ≠ UserActionEvent →
   event_type ev ≠ SystemAlertEvent →
   trace r = [] ∧ world (final r) = w).
Proof.
  intros r. subst r. set (st := {| bus := bus main_state; world := w |}).
  split_and!.
  - exact (publish_result ev st).
  - exact (main_bus_plain_event ev st eq_refl).
  - exact (main_bus_user_action ev st eq_refl).
  - exact (main_bus_alert ev st eq_refl).
  - exact (main_bus_other_class ev st eq_refl).
Qed.

(** *** Instances of the further properties *)

Lemma subscriptions_at_distinct_classes_commute_witness :
  EventClass ≠ UserActionEvent ∧
  final (subscribe UserActionEvent (UserActionHandler 1)
           (final (subscribe EventClass (LoggingHandler 0) startup)))
  = final (subscribe EventClass (LoggingHandler 0)
             (final (subscribe UserActionEvent (UserActionHandler 1) startup))).
Proof.
  assert (EventClass ≠ UserActionEvent) as Hne by discriminate.
  split; [exact Hne|].
  exact (subscriptions_at_distinct_classes_commute EventClass (LoggingHandler 0)
           UserActionEvent (UserActionHandler 1) startup Hne).
Defined.

Lemma can_handle_failure_is_isolated_witness :
  candidates (bus broken_state) login_event
    = [] ++ BrokenHandler 5 :: [UserActionHandler 1] ∧
  trace (attempt login_event (BrokenHandler 5) broken_state)
    = [can_handle_call 5 (Raise {| exn_class := "ValueError";
                                   exn_msg := "cannot decide" |});
       print_call "Error handling event login: cannot decide"] ∧
  result (publish login_event broken_state) = Ok VNone.
Proof.
  destruct (can_handle_failure_is_isolated login_event broken_state
              [] (BrokenHandler 5) [UserActionHandler 1]
              {| exn_class := "ValueError"; exn_msg := "cannot decide" |} [])
    as (H1 & H2 & _); [by vm_compute ..|].
  split; [by vm_compute|]. split; [exact H1 | exact H2].
Defined.

Lemma registration_is_local_to_its_class_witness :
  event_type login_event ≠ SystemAlertEvent ∧
  observable (publish login_event
                (final (subscribe SystemAlertEvent (LoggingHandler 0) main_state)))
  = observable (publish login_event main_state).
Proof.
  assert (event_type login_event ≠ SystemAlertEvent) as Hne by discriminate.
  split; [exact Hne|].
  exact (proj1 (registration_is_local_to_its_class SystemAlertEvent
                  (LoggingHandler 0) priority_filter login_event main_state Hne)).
Defined.

Lemma filters_stop_at_first_refusal_witness :
  filters_at (bus two_filter_state) (event_type memory_low_event)
    = [] ++ priority_filter :: [λ _ w, (Ok true, w)] ∧
  result (_should_handle memory_low_event (AlertHandler 2) two_filter_state)
    = Ok false ∧
  trace (_should_handle memory_low_event (AlertHandler 2) two_filter_state)
    = [can_handle_call 2 (Ok true); filter_call SystemAlertEvent 0 (Ok false)].
Proof.
  destruct (filters_stop_at_first_refusal memory_low_event (AlertHandler 2)
              two_filter_state [] [] priority_filter [λ _ w, (Ok true, w)]
              (Ok false) [])
    as (H1 & H2 & _); [reflexivity | reflexivity | reflexivity | reflexivity
                      | discriminate |].
  split; [reflexivity|]. split; [exact H1 | exact H2].
Defined.

Lemma filters_are_rerun_for_each_accepting_candidate_witness :
  filters_at (bus alert_state) (event_type cpu_high_event) ≠ [] ∧
  count_calls (is_filter 0) (trace (publish cpu_high_event alert_state)) = 2 ∧
  count_calls is_accept (trace (publish cpu_high_event alert_state)) = 2.
Proof.
  assert (filters_at (bus alert_state) (event_type cpu_high_event) ≠ []) as Hne.
  { intros H. vm_compute in H. discriminate H. }
  split; [exact Hne|].
  rewrite (filters_are_rerun_for_each_accepting_candidate cpu_high_event
             alert_state Hne).
  split; by vm_compute.
Defined.

(** ** The finer reading of [publish] *)

Section Live_facts.
Context {W : Type}.
Variable P : Program W.
Implicit Types (st : State (Live W)) (event : Event).
Implicit Types (s : EventSubscriber (Live W)).

Lemma settle_quiet st : pending (world st) = [] → settle P st = st.
Proof.
  destruct st as [b [o p]]. simpl. intros ->. reflexivity.
Qed.

Lemma call_live_quiet {A} (c : Callback (Live W) A) mk event st :
  quiet c → pending (world st) = [] →
  call_live P c mk event st = call c mk event st
  ∧ pending (world (final (call c mk event st))) = [].
Proof.
  intros Hq Hp. unfold call_live, call.
  pose proof (Hq event (world st)) as Hq'.
  destruct (c event (world st)) as [r w]. simpl in *.
  rewrite Hp in Hq'. by rewrite settle_quiet.
Qed.

Lemma prefixed_some {A} tr (r : Run (Live W) A) :
  prefixed tr (Some r)
  = Some {| result := result r; final := final r; trace := tr ++ trace r |}.
Proof. done. Qed.

Lemma all_filters_live_S fuel ty k event st :
  all_filters_live P (S fuel) ty k event st
  = match filters_at (bus st) ty !! k with
    | None => Some (ret true st)
    | Some filter_func =>
        let r := call_live P filter_func (filter_call ty k) event st in
        match result r with
        | Ok true =>
            prefixed (trace r)
              (all_filters_live P fuel ty (S k) event (final r))
        | _ => Some r
        end
    end.
Proof. done. Qed.

Lemma all_filters_live_quiet ty event : ∀ fuel k st,
  pending (world st) = [] →
  Forall quiet (filters_at (bus st) ty) →
  length (filters_at (bus st) ty) - k < fuel →
  all_filters_live P fuel ty k event st
  = Some (all_filters ty k (drop k (filters_at (bus st) ty)) event st)
  ∧ pending (world (final (all_filters ty k (drop k (filters_at (bus st) ty))
                             event st))) = [].
Proof.
  induction fuel as [|fuel IH]; intros k st Hp Hq Hfuel; [lia|].
  rewrite all_filters_live_S.
  destruct (filters_at (bus st) ty !! k) as [f|] eqn:Hk.
  - assert (quiet f) as Hf.
    { rewrite Forall_forall in Hq. apply Hq. by eapply list_elem_of_lookup_2. }
    rewrite (drop_S _ _ _ Hk). cbv zeta.
    destruct (call_live_quiet f (filter_call ty k) event st Hf Hp) as [-> Hp'].
    cbn [all_filters]. unfold bind.
    pose proof (call_bus f (filter_call ty k) event st) as Hb.
    pose proof (lookup_lt_Some _ _ _ Hk) as Hlt.
    destruct (result (call f (filter_call ty k) event st)) as [[]|e] eqn:Hr.
    + destruct (IH (S k) (final (call f (filter_call ty k) event st)))
        as [Heq Hp'']; [done | by rewrite Hb | rewrite Hb; lia |].
      rewrite Heq, prefixed_some, Hb. simpl. by rewrite Hb in Hp''.
    + simpl. split; [|done]. f_equal.
      destruct (call f (filter_call ty k) event st). simpl in *.
      by rewrite Hr, app_nil_r.
    + simpl. split; [|done]. f_equal.
      destruct (call f (filter_call ty k) event st). simpl in *. by rewrite Hr.
  - apply lookup_ge_None in Hk. rewrite drop_ge by lia. simpl. done.
Qed.

Lemma should_handle_live_quiet fuel event s st :
  quiet (can_handle s) →
  pending (world st) = [] →
  Forall quiet (filters_at (bus st) (event_type event)) →
  length (filters_at (bus st) (event_type event)) < fuel →
  _should_handle_live P fuel event s st = Some (_should_handle event s st)
  ∧ pending (world (final (_should_handle event s st))) = [].
Proof.
  intros Hqc Hp Hqf Hfuel. unfold _should_handle_live.
  destruct (call_live_quiet (can_handle s) (can_handle_call (sub_id s))
              event st Hqc Hp) as [-> Hp'].
  destruct (can_handle s event (world st)) as [r w] eqn:Hc.
  rewrite (call_eq _ _ _ _ _ _ Hc) in *. simpl in Hp'. simpl.
  destruct r as [[]|e].
  - rewrite (should_handle_accepting _ _ _ _ Hc). simpl.
    destruct (all_filters_live_quiet (event_type event) event fuel 0
                {| bus := bus st; world := w |}) as [Heq Hp''];
      [done | done | simpl; lia |].
    simpl in Heq, Hp''. rewrite drop_0 in Heq, Hp''.
    by rewrite Heq, prefixed_some.
  - by rewrite (should_handle_rejecting _ _ _ _ Hc).
  - by rewrite (should_handle_raising _ _ _ _ _ Hc).
Qed.

(** An exception that [all] or [_should_handle] lets out was raised by one
    of the callbacks. *)
Lemma all_filters_raise_origin {U} ty (fs : list (Callback U bool)) event :
  ∀ k (st : State U) e,
  result (all_filters ty k fs event st) = Raise e →
  ∃ f w, f ∈ fs ∧ fst (f event w) = Raise e.
Proof.
  induction fs as [|f fs IH]; intros k st e; simpl; [done|].
  unfold bind. destruct (f event (world st)) as [r w] eqn:Ef.
  rewrite (call_eq _ _ _ _ _ _ Ef). simpl.
  destruct r as [[]|e']; simpl; [|done|].
  - intros (f' & w' & Hin & Hf')%IH. exists f', w'. split; [by right | done].
  - intros [= ->]. exists f, (world st). split; [by left | by rewrite Ef].
Qed.

Lemma should_handle_raise_origin {U} event (s : EventSubscriber U) (st : State U) e :
  result (_should_handle event s st) = Raise e →
  (∃ w, fst (can_handle s event w) = Raise e) ∨
  (∃ f w, f ∈ filters_at (bus st) (event_type event) ∧ fst (f event w) = Raise e).
Proof.
  destruct (can_handle s event (world st)) as [[[]|e'] w] eqn:Hc.
  - rewrite (should_handle_accepting _ _ _ _ Hc). simpl.
    intros H%all_filters_raise_origin. by right.
  - by rewrite (should_handle_rejecting _ _ _ _ Hc).
  - rewrite (should_handle_raising _ _ _ _ _ Hc). simpl. intros [= ->].
    left. exists (world st). by rewrite Hc.
Qed.

Lemma attempt_live_some fuel event s st sh :
  _should_handle_live P fuel event s st = Some sh →
  attempt_live P fuel event s st
  = match result sh with
    | Ok true =>
        let h := call_live P (handle s) (handle_call (sub_id s)) event (final sh) in
        match result h with
        | Ok _ => Some {| result := Ok (); final := final h;
                          trace := trace sh ++ trace h |}
        | Raise e =>
            Some (except_Exception P event e (final h) (trace sh ++ trace h))
        end
    | Ok false => Some {| result := Ok (); final := final sh; trace := trace sh |}
    | Raise e => Some (except_Exception P event e (final sh) (trace sh))
    end.
Proof. intros H. unfold attempt_live. by rewrite H. Qed.

Lemma attempt_live_quiet fuel event s st :
  quiet (can_handle s) → quiet (handle s) →
  pending (world st) = [] →
  Forall quiet (filters_at (bus st) (event_type event)) →
  length (filters_at (bus st) (event_type event)) < fuel →
  ∃ r, attempt_live P fuel event s st = Some r
       ∧ bus (final r) = bus st
       ∧ pending (world (final r)) = []
       ∧ (raises_exceptions_only P (can_handle s) →
          raises_exceptions_only P (handle s) →
          Forall (raises_exceptions_only P)
            (filters_at (bus st) (event_type event)) →
          r = attempt event s st).
Proof.
  intros Hqc Hqh Hp Hqf Hfuel.
  destruct (should_handle_live_quiet fuel event s st Hqc Hp Hqf Hfuel)
    as [Hsh Hp'].
  rewrite (attempt_live_some _ _ _ _ _ Hsh). clear Hsh.
  pose proof (should_handle_bus event s st) as Hb.
  destruct (attempt_cases event s st)
    as [(w & H1 & H2)|[(e & w & H1 & H2)|[H1|(e & H1)]]].
  - rewrite H1. cbv zeta.
    destruct (call_live_quiet (handle s) (handle_call (sub_id s)) event
                (final (_should_handle event s st)) Hqh Hp') as [-> Hp''].
    rewrite (call_eq _ _ _ _ _ _ H2) in *. simpl in *.
    eexists. split; [done|]. simpl. split; [done|]. split; [done|].
    intros _ _ _. rewrite (attempt_delivering _ _ _ _ H1 H2). by rewrite Hb.
  - rewrite H1. cbv zeta.
    destruct (call_live_quiet (handle s) (handle_call (sub_id s)) event
                (final (_should_handle event s st)) Hqh Hp') as [-> Hp''].
    rewrite (call_eq _ _ _ _ _ _ H2) in *. simpl in *.
    eexists. split; [done|]. unfold except_Exception.
    destruct (isinstance_Exception P e) eqn:He; simpl.
    + split; [done|]. split; [done|]. intros _ _ _.
      rewrite (attempt_failing _ _ _ _ _ H1 H2). by rewrite Hb, <- app_assoc.
    + split; [done|]. split; [done|]. intros _ Hh _.
      specialize (Hh event (world (final (_should_handle event s st))) e).
      rewrite H2 in Hh. rewrite Hh in He; done.
  - rewrite H1. eexists. split; [done|]. simpl. split; [done|]. split; [done|].
    intros _ _ _. by rewrite (attempt_skipping _ _ _ H1).
  - rewrite H1. eexists. split; [done|]. unfold except_Exception.
    destruct (isinstance_Exception P e) eqn:He; simpl.
    + split; [done|]. split; [done|]. intros _ _ _.
      by rewrite (attempt_blocked _ _ _ _ H1).
    + split; [done|]. split; [done|]. intros Hc _ Hf.
      apply should_handle_raise_origin in H1 as [(w & Hw)|(f & w & Hin & Hw)].
      * rewrite (Hc _ _ _ Hw) in He. done.
      * rewrite Forall_forall in Hf. rewrite (Hf _ Hin _ _ _ Hw) in He. done.
Qed.

Lemma dispatch_live_step fuel event i st s turn :
  candidates (bus st) event !! i = Some s →
  attempt_live P fuel event s st = Some turn →
  dispatch_live P (S fuel) event i st
  = match result turn with
    | Ok _ => prefixed (trace turn) (dispatch_live P fuel event (S i) (final turn))
    | Raise _ => Some turn
    end.
Proof. intros Hi Ha. simpl. rewrite Hi. simpl. by rewrite Ha. Qed.

Lemma dispatch_live_end fuel event i st :
  candidates (bus st) event !! i = None →
  dispatch_live P (S fuel) event i st = Some (ret () st).
Proof. intros Hi. simpl. by rewrite Hi. Qed.

(** When no callback calls the bus, the loop over the stored list is the
    loop over the list as it was at the start, the bus is left as it was,
    and the fuel of [enough_fuel] suffices. *)
Lemma dispatch_live_quiet event : ∀ fuel i st,
  pending (world st) = [] →
  leave_bus_alone (bus st) event →
  length (candidates (bus st) event) - i
  + length (filters_at (bus st) (event_type event)) + 1 < fuel →
  ∃ r, dispatch_live P fuel event i st = Some r
       ∧ bus (final r) = bus st
       ∧ pending (world (final r)) = []
       ∧ (raise_exceptions_only P (bus st) event →
          r = dispatch event (drop i (candidates (bus st) event)) st).
Proof.
  induction fuel as [|fuel IH]; intros i st Hp [Hqs Hqf] Hfuel; [lia|].
  destruct (candidates (bus st) event !! i) as [s|] eqn:Hi.
  - assert (quiet (can_handle s) ∧ quiet (handle s)) as [Hqc Hqh].
    { rewrite Forall_forall in Hqs. apply Hqs. by eapply list_elem_of_lookup_2. }
    pose proof (lookup_lt_Some _ _ _ Hi) as Hlt.
    destruct (attempt_live_quiet fuel event s st Hqc Hqh Hp Hqf)
      as (turn & Ha & Hb & Hp' & Hexc); [lia|].
    rewrite (dispatch_live_step _ _ _ _ _ _ Hi Ha).
    destruct (result turn) as [[]|e] eqn:Hr.
    + destruct (IH (S i) (final turn)) as (r & Hd & Hb' & Hp'' & Hexc');
        [done | by rewrite Hb | rewrite Hb; lia |].
      rewrite Hd, prefixed_some. eexists. split; [done|]. simpl.
      split; [by rewrite Hb', Hb|]. split; [done|].
      intros [Hes Hef]. rewrite (drop_S _ _ _ Hi), dispatch_cons.
      assert (turn = attempt event s st) as <-.
      { rewrite Forall_forall in Hes.
        destruct (Hes s) as [? ?]; [by eapply list_elem_of_lookup_2|].
        by apply Hexc. }
      rewrite Hb in Hexc'. rewrite Hexc' by done.
      by rewrite dispatch_result.
    + eexists. split; [done|]. split; [done|]. split; [done|].
      intros [Hes Hef]. exfalso.
      assert (turn = attempt event s st) as ->.
      { rewrite Forall_forall in Hes.
        destruct (Hes s) as [? ?]; [by eapply list_elem_of_lookup_2|].
        by apply Hexc. }
      by rewrite attempt_result in Hr.
  - rewrite (dispatch_live_end _ _ _ _ Hi). eexists. split; [done|]. simpl.
    split; [done|]. split; [done|]. intros _.
    apply lookup_ge_None in Hi. by rewrite drop_ge by lia.
Qed.

Lemma publish_live_quiet fuel event st :
  pending (world st) = [] →
  leave_bus_alone (bus st) event →
  enough_fuel (bus st) event fuel →
  ∃ r, publish_live P fuel event st = Some r
       ∧ bus (final r) = bus st
       ∧ (raise_exceptions_only P (bus st) event → r = publish event st).
Proof.
  intros Hp Hq Hfuel. unfold enough_fuel in Hfuel. unfold publish_live.
  destruct (_subscribers (bus st) !! event_type event) as [l|] eqn:Hl.
  - destruct (dispatch_live_quiet event fuel 0 st Hp Hq)
      as (r & Hd & Hb & _ & Hexc); [lia|].
    rewrite Hd. simpl. eexists. split; [done|]. simpl. split; [done|].
    intros He. rewrite (Hexc He), drop_0, publish_dispatch.
    by rewrite dispatch_result.
  - eexists. split; [done|]. simpl. split; [done|]. intros _.
    rewrite publish_dispatch. unfold candidates, registered_at. by rewrite Hl.
Qed.

(** C10 (amended). [publish] itself writes nothing to the bus: in any state
    of the bus, whatever calls came before, when none of the callbacks that
    the publication of the event reaches (the [can_handle] and [handle] of
    the subscribers stored under the class of the event, the predicates
    stored under it) calls [subscribe] or [add_filter], [publish] comes to
    an end and leaves both dictionaries as they were. *)
Theorem publish_writes_nothing_itself fuel event st :
  pending (world st) = [] →
  leave_bus_alone (bus st) event →
  enough_fuel (bus st) event fuel →
  ∃ r, publish_live P fuel event st = Some r
       ∧ bus (final r) = bus st
       ∧ _subscribers (bus (final r)) = _subscribers (bus st)
       ∧ _filters (bus (final r)) = _filters (bus st).
Proof.
  intros Hp Hq Hfuel.
  destruct (publish_live_quiet fuel event st Hp Hq Hfuel) as (r & Hr & Hb & _).
  exists r. by rewrite Hb.
Qed.

(** X6. When the callbacks make no call to the bus and raise instances of
    [Exception] only, [publish] comes to an end without raising and is the
    walk over the list as it was stored at the call: it gives a turn to
    exactly the subscribers stored under the class of the event itself,
    once per registration and in the order of registration, whatever the
    callbacks answer or raise, and calls [handle] at most once per turn. *)
Theorem publish_attempts_each_registration_once fuel event st :
  pending (world st) = [] →
  leave_bus_alone (bus st) event →
  raise_exceptions_only P (bus st) event →
  enough_fuel (bus st) event fuel →
  ∃ r, publish_live P fuel event st = Some r
       ∧ r = publish event st
       ∧ result r = Ok VNone
       ∧ evaluated (trace r)
         = map sub_id (registered_at (bus st) (event_type event))
       ∧ invoked (trace r) `sublist_of` evaluated (trace r).
Proof.
  intros Hp Hq He Hfuel.
  destruct (publish_live_quiet fuel event st Hp Hq Hfuel) as (r & Hr & _ & Hexc).
  exists r. split; [done|]. rewrite (Hexc He). split; [done|].
  apply publish_attempts_candidates.
Qed.

(** X12. When the callbacks make no call to the bus and raise instances of
    [Exception] only, [SystemEventPublisher.publish] prints its announcement
    before any subscriber is called, also when nobody is subscribed, then
    does what [EventBus.publish] does and nothing more: it evaluates to
    [None] and leaves the registrations as they were. *)
Theorem publisher_announces_then_dispatches fuel event st :
  pending (world st) = [] →
  leave_bus_alone (bus st) event →
  raise_exceptions_only P (bus st) event →
  enough_fuel (bus st) event fuel →
  ∃ r, SystemEventPublisher_publish_live P fuel event st = Some r
       ∧ result r = Ok VNone
       ∧ trace r = print_call ("Publishing event: " +:+ name event)
                   :: trace (publish event st)
       ∧ final r = final (publish event st)
       ∧ bus (final r) = bus st.
Proof.
  intros Hp Hq He Hfuel. unfold SystemEventPublisher_publish_live.
  destruct (publish_live_quiet fuel event st Hp Hq Hfuel) as (r & Hr & Hb & Hexc).
  rewrite Hr, prefixed_some. eexists. split; [done|]. simpl.
  rewrite (Hexc He) in *. split_and!; try done. by rewrite publish_dispatch.
Qed.

(** *** What [publish] lets through *)

Lemma ends_raising_app e (t1 t2 : list Call) :
  ends_raising e t2 → ends_raising e (t1 ++ t2).
Proof.
  intros (tr' & c & -> & Hc). exists (t1 ++ tr'), c. by rewrite app_assoc.
Qed.

Lemma ends_raising_cons e c (t : list Call) :
  ends_raising e t → ends_raising e (c :: t).
Proof. apply (ends_raising_app e [c]). Qed.






End Live_facts.

Lemma lift_callback_quiet {W A} (c : Callback W A) : quiet (lift_callback c).
Proof.
  intros event w. unfold lift_callback. by destruct (c event (outside w)).
Qed.

(** C10, as stated, fails: a subscriber whose [handle] subscribes another
    one under the class of the event leaves the list of that class longer
    than it was, and the newcomer even gets its turn in the same
    publication. *)
Lemma handler_that_subscribes_changes_registry :
  ∃ r, publish_live sample_program 6 login_event recruiting_state = Some r
       ∧ result r = Ok VNone
       ∧ map sub_id (registered_at (bus recruiting_state) UserActionEvent) = [9]
       ∧ map sub_id (registered_at (bus (final r)) UserActionEvent) = [9; 1]
       ∧ evaluated (trace r) = [9; 1]
       ∧ _subscribers (bus (final r)) ≠ _subscribers (bus recruiting_state).
Proof.
  eexists. split; [reflexivity|].
  split_and!; [by vm_compute ..|].
  intros H.
  apply (f_equal (λ m, length (default [] (m !! UserActionEvent)))) in H.
  vm_compute in H. discriminate H.
Qed.

Lemma lift_callback_raises {W A} (P : Program W) (c : Callback W A) :
  (∀ event o e, fst (c event o) = Raise e → isinstance_Exception P e = true) →
  raises_exceptions_only P (lift_callback c).
Proof.
  intros H event w e. unfold lift_callback.
  specialize (H event (outside w) e).
  by destruct (c event (outside w)).
Qed.

Lemma priority_filter_raises_exceptions_only :
  raises_exceptions_only sample_program (lift_callback priority_filter).
Proof.
  apply lift_callback_raises. intros event o e.
  rewrite priority_filter_answer. simpl.
  destruct (alert_priority (data event)); [done|].
  intros [= <-]. unfold priority_failure. by destruct (data event).
Qed.

Lemma main_alert_candidates :
  candidates (bus live_main_state) cpu_high_event
  = [lift_subscriber (AlertHandler 2)]
  ∧ filters_at (bus live_main_state) (event_type cpu_high_event)
    = [lift_callback priority_filter].
Proof. split; reflexivity. Qed.

Lemma main_alert_leaves_bus_alone :
  leave_bus_alone (bus live_main_state) cpu_high_event.
Proof.
  destruct main_alert_candidates as [Hc Hf].
  unfold leave_bus_alone. rewrite Hc, Hf.
  split; repeat constructor; apply lift_callback_quiet.
Qed.

Lemma main_alert_raises_exceptions_only :
  raise_exceptions_only sample_program (bus live_main_state) cpu_high_event.
Proof.
  destruct main_alert_candidates as [Hc Hf].
  unfold raise_exceptions_only. rewrite Hc, Hf.
  split; repeat constructor;
    [by intros ev w e .. | apply priority_filter_raises_exceptions_only].
Qed.

Lemma main_alert_fuel : enough_fuel (bus live_main_state) cpu_high_event 4.
Proof.
  destruct main_alert_candidates as [Hc Hf].
  unfold enough_fuel. rewrite Hc, Hf. simpl. lia.
Qed.

Lemma publish_writes_nothing_itself_witness :
  ∃ r, publish_live sample_program 4 cpu_high_event live_main_state = Some r
       ∧ bus (final r) = bus live_main_state
       ∧ _subscribers (bus (final r)) = _subscribers (bus live_main_state)
       ∧ _filters (bus (final r)) = _filters (bus live_main_state).
Proof.
  apply (publish_writes_nothing_itself sample_program 4 cpu_high_event
           live_main_state).
  - reflexivity.
  - exact main_alert_leaves_bus_alone.
  - exact main_alert_fuel.
Defined.

Lemma publish_attempts_each_registration_once_witness :
  ∃ r, publish_live sample_program 4 cpu_high_event live_main_state = Some r
       ∧ r = publish cpu_high_event live_main_state
       ∧ result r = Ok VNone
       ∧ evaluated (trace r)
         = map sub_id (registered_at (bus live_main_state)
                         (event_type cpu_high_event))
       ∧ invoked (trace r) `sublist_of` evaluated (trace r).
Proof.
  apply (publish_attempts_each_registration_once sample_program 4
           cpu_high_event live_main_state).
  - reflexivity.
  - exact main_alert_leaves_bus_alone.
  - exact main_alert_raises_exceptions_only.
  - exact main_alert_fuel.
Defined.

Lemma publisher_announces_then_dispatches_witness :
  ∃ r, SystemEventPublisher_publish_live sample_program 4 cpu_high_event
         live_main_state = Some r
       ∧ result r = Ok VNone
       ∧ trace r = print_call ("Publishing event: " +:+ name cpu_high_event)
                   :: trace (publish cpu_high_event live_main_state)
       ∧ final r = final (publish cpu_high_event live_main_state)
       ∧ bus (final r) = bus live_main_state.
Proof.
  apply (publisher_announces_then_dispatches sample_program 4 cpu_high_event
           live_main_state).
  - reflexivity.
  - exact main_alert_leaves_bus_alone.
  - exact main_alert_raises_exceptions_only.
  - exact main_alert_fuel.
Defined.

